(** * Mortgage calculator (client/pages/Index.tsx): validator and amortization core

    A shallow embedding of the [Index] component's logic: the seven pieces of
    React state, the [validateForm] and [calculateMortgage] handlers, and the
    JavaScript primitives they call.  JavaScript numbers are IEEE 754 binary64
    values, modelled by Rocq's primitive [float]; the error object is a finite
    map from field names to messages. *)

From Stdlib Require Import ZArith Lia Bool List Ascii String.
From Stdlib Require Import Floats Uint63.
From stdpp Require Import base option strings gmap.

Local Open Scope Z_scope.
Set Warnings "-inexact-float".

(** ** JavaScript primitives on numbers *)

Module JS.

(** [isNaN(x)] on a value that is already a number. *)
Definition isNaN (x : float) : bool := PrimFloat.is_nan x.

(** [Number.isInteger(x)]: [x] is finite and has no fractional part. *)
Definition Number_isInteger (x : float) : bool :=
match Prim2SF x with
| S754_zero _ => true
| S754_finite _ m e =>
    if 0 <=? e then true else Z.pos m mod 2 ^ (- e) =? 0
| S754_infinity _ | S754_nan => false
end.

(** [Math.round(x)]: NaN, zeros, infinities and integral values are returned
  unchanged; otherwise the integer nearest to [x], a tie going towards
  +Infinity, which is [floor(x + 1/2)] computed exactly.  A result of zero
  keeps the sign of [x]. *)
Definition Math_round (x : float) : float :=
match Prim2SF x with
| S754_finite s m e =>
    if 0 <=? e then x
    else
      let d := 2 ^ (- e) in
      let v := if s then Z.neg m else Z.pos m in
      let q := (2 * v + d) / (2 * d) in
      let a := of_uint63 (Uint63.of_Z (Z.abs q)) in
      if s then (- a)%float else a
| _ => x
end.

(** *** [Number(text)]: the StringToNumber conversion

  Leading and trailing white space is dropped; the empty text is [+0]; a
  radix prefix [0x], [0o] or [0b] introduces an unsigned integer; otherwise
  an optional sign is followed by [Infinity] or by a decimal literal with an
  optional fraction and exponent.  Anything else is [NaN].  The decimal value
  is rounded once, to nearest with ties to even.

  A text is held as the bytes of its UTF-8 encoding.  The white space that is
  dropped is [StrWhiteSpaceChar], the WhiteSpace and LineTerminator
  characters: TAB, LF, VT, FF, CR and SP take one byte, U+00A0 takes two,
  and U+1680, U+2000 to U+200A, U+2028, U+2029, U+202F, U+205F, U+3000 and
  U+FEFF take three. *)

Definition is_space (c : ascii) : bool :=
let n := nat_of_ascii c in
((9 <=? n) && (n <=? 13))%nat || (n =? 32)%nat.

(** U+00A0 is the bytes C2 A0. *)
Definition is_space2 (c1 c2 : ascii) : bool :=
match c1, c2 with
| "194"%char, "160"%char => true
| _, _ => false
end.

(** U+1680 is E1 9A 80; U+2000 to U+200A, U+2028, U+2029 and U+202F are
  E2 80 followed by 80 to 8A, A8, A9 and AF; U+205F is E2 81 9F; U+3000 is
  E3 80 80; U+FEFF is EF BB BF. *)
Definition is_space3 (c1 c2 c3 : ascii) : bool :=
let n := nat_of_ascii c3 in
match c1, c2 with
| "225"%char, "154"%char => (n =? 128)%nat
| "226"%char, "128"%char =>
    ((128 <=? n) && (n <=? 138))%nat || (n =? 168)%nat || (n =? 169)%nat
    || (n =? 175)%nat
| "226"%char, "129"%char => (n =? 159)%nat
| "227"%char, "128"%char => (n =? 128)%nat
| "239"%char, "187"%char => (n =? 191)%nat
| _, _ => false
end.

(** The text without its leading white space. *)
Fixpoint drop_space (l : list ascii) : list ascii :=
match l with
| c1 :: r1 =>
    if is_space c1 then drop_space r1
    else
      match r1 with
      | c2 :: r2 =>
          if is_space2 c1 c2 then drop_space r2
          else
            match r2 with
            | c3 :: r3 => if is_space3 c1 c2 c3 then drop_space r3 else l
            | [] => l
            end
      | [] => l
      end
| [] => []
end.

(** The same on a text read backwards, where the bytes of a character come
  last byte first: the reversed text without the trailing white space. *)
Fixpoint drop_space_end (l : list ascii) : list ascii :=
match l with
| c1 :: r1 =>
    if is_space c1 then drop_space_end r1
    else
      match r1 with
      | c2 :: r2 =>
          if is_space2 c2 c1 then drop_space_end r2
          else
            match r2 with
            | c3 :: r3 => if is_space3 c3 c2 c1 then drop_space_end r3 else l
            | [] => l
            end
      | [] => l
      end
| [] => []
end.

Definition trim (l : list ascii) : list ascii :=
rev (drop_space_end (rev (drop_space l))).

Definition digit_val (radix : Z) (c : ascii) : option Z :=
let n := Z.of_nat (nat_of_ascii c) in
let v :=
  if (48 <=? n) && (n <=? 57) then Some (n - 48)
  else if (97 <=? n) && (n <=? 102) then Some (n - 87)
  else if (65 <=? n) && (n <=? 70) then Some (n - 55)
  else None in
match v with
| Some d => if d <? radix then Some d else None
| None => None
end.

(** The longest prefix of digits: their value, their count, and the rest. *)
Fixpoint digits_acc (radix : Z) (l : list ascii) (acc : Z) (cnt : Z)
: Z * Z * list ascii :=
match l with
| c :: r =>
    match digit_val radix c with
    | Some d => digits_acc radix r (radix * acc + d) (cnt + 1)
    | None => (acc, cnt, l)
    end
| [] => (acc, cnt, [])
end.

Definition digits (radix : Z) (l : list ascii) : Z * Z * list ascii :=
digits_acc radix l 0 0.

(** The correctly rounded binary64 value of [m * 10^e], [m >= 0]. *)
Definition decimal_value (neg : bool) (m e : Z) : float :=
match m with
| Z.pos p =>
    let v :=
      if 0 <=? e then binary_normalize prec emax (m * 10 ^ e) 0 false
      else SFdiv prec emax (S754_finite false p 0)
                           (S754_finite false (Z.to_pos (10 ^ (- e))) 0) in
    SF2Prim (if neg then SFopp v else v)
| _ => if neg then neg_zero else zero
end.

Definition is_e (c : ascii) : bool :=
let n := nat_of_ascii c in ((n =? 101) || (n =? 69))%nat.

(** [ExponentPart_opt] followed by the end of the text. *)
Definition parse_exponent (l : list ascii) : option Z :=
match l with
| [] => Some 0
| c :: r =>
    if is_e c then
      let '(neg, r') :=
        match r with
        | "+"%char :: t => (false, t)
        | "-"%char :: t => (true, t)
        | _ => (false, r)
        end in
      match digits 10 r' with
      | (v, cnt, []) => if 0 <? cnt then Some (if neg then - v else v) else None
      | _ => None
      end
    else None
end.

(** [StrUnsignedDecimalLiteral] other than [Infinity]. *)
Definition parse_unsigned_decimal (neg : bool) (l : list ascii) : float :=
let '(ip, ic, r1) := digits 10 l in
let '(fp, fc, r2) :=
  match r1 with
  | "."%char :: t => digits 10 t
  | _ => (0, 0, r1)
  end in
let dotted := match r1 with "."%char :: _ => true | _ => false end in
if (0 <? ic) || (dotted && (0 <? fc)) then
  match parse_exponent r2 with
  | Some ex => decimal_value neg (ip * 10 ^ fc + fp) (ex - fc)
  | None => nan
  end
else nan.

Definition parse_radix (radix : Z) (l : list ascii) : float :=
match digits radix l with
| (v, cnt, []) =>
    if 0 <? cnt then SF2Prim (binary_normalize prec emax v 0 false) else nan
| _ => nan
end.

Definition parse_signed (neg : bool) (l : list ascii) : float :=
if String.eqb (string_of_list_ascii l) "Infinity"
then (if neg then neg_infinity else infinity)
else parse_unsigned_decimal neg l.

Definition Number (text : string) : float :=
match trim (list_ascii_of_string text) with
| [] => zero
| "0"%char :: "x"%char :: r | "0"%char :: "X"%char :: r => parse_radix 16 r
| "0"%char :: "o"%char :: r | "0"%char :: "O"%char :: r => parse_radix 8 r
| "0"%char :: "b"%char :: r | "0"%char :: "B"%char :: r => parse_radix 2 r
| "+"%char :: r => parse_signed false r
| "-"%char :: r => parse_signed true r
| l => parse_signed false l
end.

(** A text is falsy exactly when it is empty: the test [!text]. *)
Definition falsy (text : string) : bool :=
match text with EmptyString => true | String _ _ => false end.

End JS.

(** ** A log of effects

    A computation that also emits a sequence of events.  It is used twice: the
    numeric core emits the divisor of every division it performs, and the
    event handlers emit the state updates they enqueue. *)

Definition Logged (W A : Type) : Type := A * list W.

Definition ret {W A} (a : A) : Logged W A := (a, []).

Definition bind {W A B} (k : A -> Logged W B) (c : Logged W A) : Logged W B :=
  let '(a, w1) := c in
  let '(b, w2) := k a in
  (b, w1 ++ w2).

Definition emit {W} (w : W) : Logged W unit := (tt, [w]).

#[export] Instance Logged_ret {W} : MRet (Logged W) := @ret W.
#[export] Instance Logged_bind {W} : MBind (Logged W) := @bind W.

(** ** Data model *)

Inductive MortgageType := repayment | interest_only.

Record CalculationResult := mkResult {
  monthlyPayment : float;
  totalPayment : float;
  totalInterest : float
}.

(** [FormErrors]: an object whose keys are field names. *)
Abbreviation FormErrors := (gmap string string).

Definition Object_keys (o : FormErrors) : list string := (map_to_list o).*1.

(** The component's state, one field per [useState]. *)
Record State := mkState {
  loanAmount : string;
  interestRate : string;
  loanTerm : string;
  mortgageType : MortgageType;
  result : option CalculationResult;
  errors : FormErrors;
  submitted : bool
}.

Definition initial : State :=
  mkState "" "" "" repayment None ∅ false.

(** A state update enqueued by a setter.  A handler reads the state of the
    render it was created in and enqueues updates; they take effect, in
    order, when the handler has returned. *)
Inductive Update :=
| setLoanAmount (v : string)
| setInterestRate (v : string)
| setLoanTerm (v : string)
| setMortgageType (v : MortgageType)
| setResult (v : option CalculationResult)
| setErrors (v : FormErrors)
| setSubmitted (v : bool).

Definition apply_update (s : State) (u : Update) : State :=
  match u with
  | setLoanAmount v =>
      mkState v (interestRate s) (loanTerm s) (mortgageType s) (result s) (errors s) (submitted s)
  | setInterestRate v =>
      mkState (loanAmount s) v (loanTerm s) (mortgageType s) (result s) (errors s) (submitted s)
  | setLoanTerm v =>
      mkState (loanAmount s) (interestRate s) v (mortgageType s) (result s) (errors s) (submitted s)
  | setMortgageType v =>
      mkState (loanAmount s) (interestRate s) (loanTerm s) v (result s) (errors s) (submitted s)
  | setResult v =>
      mkState (loanAmount s) (interestRate s) (loanTerm s) (mortgageType s) v (errors s) (submitted s)
  | setErrors v =>
      mkState (loanAmount s) (interestRate s) (loanTerm s) (mortgageType s) (result s) v (submitted s)
  | setSubmitted v =>
      mkState (loanAmount s) (interestRate s) (loanTerm s) (mortgageType s) (result s) (errors s) v
  end.

Definition apply_updates (s : State) (us : list Update) : State :=
  fold_left apply_update us s.

Definition Handler (A : Type) : Type := Logged Update A.

(** ** The validator *)

Section Validator.
Import JS.

Definition validateForm (s : State) : Handler bool :=
  let newErrors : FormErrors := ∅ in
  let newErrors :=
    if falsy (loanAmount s) then
      <["loanAmount" := "Loan amount is required"]> newErrors
    else if isNaN (Number (loanAmount s)) || (Number (loanAmount s) <=? 0)%float then
      <["loanAmount" := "Please enter a valid loan amount"]> newErrors
    else newErrors in
  let newErrors :=
    if falsy (interestRate s) then
      <["interestRate" := "Interest rate is required"]> newErrors
    else if isNaN (Number (interestRate s)) || (Number (interestRate s) <? 0)%float then
      <["interestRate" := "Please enter a valid interest rate"]> newErrors
    else newErrors in
  let newErrors :=
    if falsy (loanTerm s) then
      <["loanTerm" := "Loan term is required"]> newErrors
    else if isNaN (Number (loanTerm s))
            || (Number (loanTerm s) <=? 0)%float
            || negb (Number_isInteger (Number (loanTerm s))) then
      <["loanTerm" := "Please enter a valid loan term in years"]> newErrors
    else newErrors in
  emit (setErrors newErrors);;
  mret (Nat.eqb (length (Object_keys newErrors)) 0).

(** The error object that a run of [validateForm] leaves in the state. *)
Definition newErrors (s : State) : FormErrors :=
  errors (apply_updates s (validateForm s).2).

End Validator.

(** ** The amortization calculator *)

Section Calculator.
Import JS.
Local Open Scope float_scope.

(** [Math.pow] is the platform's; the calculator is parametric in it. *)
Variable Math_pow : float -> float -> float.

(** JavaScript's [/], which here also records its divisor. *)
Definition div (x y : float) : Logged float float := (x / y, [y]).
Infix "÷" := div (at level 40, left associativity).

(** Lines 78 to 106 of [calculateMortgage]: from the three parsed numbers
    and the mortgage type to the rounded figures. *)
Definition calculate (principal annualRate years : float) (ty : MortgageType)
  : Logged float CalculationResult :=
  percent ← annualRate ÷ 100;
  monthlyRate ← percent ÷ 12;
  let numberOfPayments := years * 12 in
  '(monthlyPayment, totalPayment, totalInterest) ←
    match ty with
    | repayment =>
        monthlyPayment ←
          (if monthlyRate =? 0 then
             principal ÷ numberOfPayments
           else
             (principal *
                (monthlyRate * Math_pow (1 + monthlyRate) numberOfPayments))
             ÷ (Math_pow (1 + monthlyRate) numberOfPayments - 1));
        let totalPayment := monthlyPayment * numberOfPayments in
        let totalInterest := totalPayment - principal in
        mret (monthlyPayment, totalPayment, totalInterest)
    | interest_only =>
        let monthlyPayment := principal * monthlyRate in
        let totalPayment := principal + monthlyPayment * numberOfPayments in
        let totalInterest := monthlyPayment * numberOfPayments in
        mret (monthlyPayment, totalPayment, totalInterest)
    end;
  mp ← Math_round (monthlyPayment * 100) ÷ 100;
  tp ← Math_round (totalPayment * 100) ÷ 100;
  ti ← Math_round (totalInterest * 100) ÷ 100;
  mret (mkResult mp tp ti).

(** The [Calculate] button. *)
Definition calculateMortgage (s : State) : Handler unit :=
  valid ← validateForm s;
  if negb valid then
    emit (setSubmitted true)
  else
    emit (setSubmitted true);;
    let principal := Number (loanAmount s) in
    let annualRate := Number (interestRate s) in
    let years := Number (loanTerm s) in
    emit (setResult (Some (calculate principal annualRate years (mortgageType s)).1)).

(** The [Reset] button. *)
Definition handleReset (s : State) : Handler unit :=
  emit (setLoanAmount "");;
  emit (setInterestRate "");;
  emit (setLoanTerm "");;
  emit (setMortgageType repayment);;
  emit (setResult None);;
  emit (setErrors ∅);;
  emit (setSubmitted false).

(** The state after a handler has run in state [s]. *)
Definition run {A} (h : State -> Handler A) (s : State) : State :=
  apply_updates s (h s).2.

End Calculator.

(** ** The specification's formulas

    Section 4 of the specification, written down as it reads, for comparison
    with the code. *)

Module Spec.
Import JS.
Local Open Scope float_scope.

(** Rounding to cents: the value scaled by 100, rounded, divided by 100. *)
Definition round2 (x : float) : float := Math_round (x * 100) / 100.

(** r = annualRatePercent / 100 / 12. *)
Definition monthlyRate (annualRatePercent : float) : float :=
  annualRatePercent / 100 / 12.

(** n = termYears * 12. *)
Definition numberOfPayments (termYears : float) : float := termYears * 12.

(** Repayment: P / n when r = 0, else P * [r (1+r)^n] / [(1+r)^n - 1]. *)
Definition repayment_monthly (pow : float -> float -> float) (P r n : float) : float :=
  if r =? 0 then P / n
  else P * (r * pow (1 + r) n) / (pow (1 + r) n - 1).

(** The three figures before rounding. *)
Definition unrounded (pow : float -> float -> float)
    (P annualRatePercent termYears : float) (ty : MortgageType)
  : float * float * float :=
  let r := monthlyRate annualRatePercent in
  let n := numberOfPayments termYears in
  match ty with
  | repayment =>
      let m := repayment_monthly pow P r n in
      (m, m * n, m * n - P)
  | interest_only =>
      let m := P * r in
      (m, P + m * n, m * n)
  end.

(** The validator's rule for each field, as a function of that field alone. *)
Definition principal_rule (text : string) : option string :=
  if falsy text then Some "Loan amount is required"
  else if isNaN (Number text) || (Number text <=? 0)
  then Some "Please enter a valid loan amount" else None.

Definition rate_rule (text : string) : option string :=
  if falsy text then Some "Interest rate is required"
  else if isNaN (Number text) || (Number text <? 0)
  then Some "Please enter a valid interest rate" else None.

Definition term_rule (text : string) : option string :=
  if falsy text then Some "Loan term is required"
  else if isNaN (Number text) || (Number text <=? 0)
          || negb (Number_isInteger (Number text))
  then Some "Please enter a valid loan term in years" else None.

End Spec.


(** ** Predicates on binary64 values *)

(** Not negative: a positive value, a zero of either sign, or NaN. *)
Definition SFnn (x : spec_float) : bool :=
  match x with
  | S754_finite true _ _ | S754_infinity true => false
  | _ => true
  end.

(** The sign bit is clear, or the value is NaN. *)
Definition SFsp (x : spec_float) : bool :=
  match x with
  | S754_zero s | S754_infinity s | S754_finite s _ _ => negb s
  | S754_nan => true
  end.

(** The value is not NaN and has sign bit [s]. *)
Definition sign_is (s : bool) (x : spec_float) : Prop :=
  match x with
  | S754_nan => False
  | S754_zero s' | S754_infinity s' | S754_finite s' _ _ => s' = s
  end.

(** Strictly positive: a positive finite value or +Infinity. *)
Definition SFpos (x : spec_float) : bool :=
  match x with
  | S754_finite false _ _ | S754_infinity false => true
  | _ => false
  end.

(** ** Rounding, as arithmetic on integers

    The value [N / K] of two integers, as the rounding of [SpecFloat] sees it:
    the shift record that locates it, its rounding to the nearest integer with
    ties to even, and the mantissa and exponent that rounding [N / D * 2^E]
    to binary64 produces. *)

Definition rec_of (N K : Z) : shr_record :=
  {| shr_m := N / K;
     shr_r := K <=? 2 * (N mod K);
     shr_s := negb (N mod K =? 0) && negb (2 * (N mod K) =? K) |}.

Definition rne (N K : Z) : Z :=
  let q := N / K in
  let r := N mod K in
  if 2 * r <? K then q
  else if K <? 2 * r then q + 1
  else if Z.even q then q else q + 1.

Definition round_mant (N D E : Z) : Z * Z :=
  let n := Z.max 0 (fexp prec emax (Zdigits2 (N / D) + E) - E) in
  let m1 := rne N (D * 2 ^ n) in
  let e1 := E + n in
  let n' := Z.max 0 (fexp prec emax (Zdigits2 m1 + e1) - e1) in
  (m1 / (1 * 2 ^ n'), e1 + n').

Definition finish (s : bool) (me : Z * Z) : spec_float :=
  match me.1 with
  | Z0 => S754_zero s
  | Z.pos m => if me.2 <=? emax - prec then S754_finite s m me.2 else S754_infinity s
  | Z.neg _ => S754_nan
  end.

(** [x] is at most [y] among the values that are not negative, unless one of
    them is NaN. *)
Definition mono_rel (x y : spec_float) : Prop :=
  x = S754_nan ∨ y = S754_nan
  ∨ (SFnn x = true ∧ SFnn y = true ∧ SFleb x y = true).

Definition fmono (x y : float) : Prop := mono_rel (Prim2SF x) (Prim2SF y).

(** ** What the validator accepts, on the parsed numbers *)

Definition valid_principal (P : float) : bool :=
  negb (JS.isNaN P) && negb (P <=? 0)%float.

Definition valid_rate (rate : float) : bool :=
  negb (JS.isNaN rate) && negb (rate <? 0)%float.

Definition valid_term (years : float) : bool :=
  negb (JS.isNaN years) && negb (years <=? 0)%float && JS.Number_isInteger years.

(** A model of [Math.pow] for exponents that are non-negative integers, by
    repeated multiplication.  It serves only as an instance of the parameter
    [Math_pow]; no statement about the calculator depends on it. *)
Fixpoint pow_pos (x : float) (p : positive) : float :=
  match p with
  | xH => x
  | xO p' => let y := pow_pos x p' in (y * y)%float
  | xI p' => let y := pow_pos x p' in (x * (y * y))%float
  end.

Definition pow_model (x y : float) : float :=
  match Prim2SF y with
  | S754_zero _ => 1%float
  | S754_finite false m e =>
      if 0 <=? e then pow_pos x (Pos.shiftl m (Z.to_N e))
      else if Z.pos m mod 2 ^ (- e) =? 0
           then pow_pos x (Z.to_pos (Z.pos m / 2 ^ (- e)))
           else nan
  | _ => nan
  end.

(** The figures [calculateMortgage] computes from the texts held in [s]. *)
Definition figures (pow : float → float → float) (s : State) : CalculationResult :=
  (calculate pow (JS.Number (loanAmount s)) (JS.Number (interestRate s))
     (JS.Number (loanTerm s)) (mortgageType s)).1.

(** A form filled in with the given texts, before any Calculate action. *)
Definition form (amount rate term : string) (ty : MortgageType) : State :=
  mkState amount rate term ty None ∅ false.

(** ** The events of the form

    What the user can do: type into one of the three inputs ([onChange]),
    press one of the two mortgage type buttons, press Calculate, press
    Reset. *)

Inductive Event :=
| TypeLoanAmount (v : string)
| TypeInterestRate (v : string)
| TypeLoanTerm (v : string)
| ClickRepayment
| ClickInterestOnly
| ClickCalculate
| ClickReset.

Definition on_event (pow : float → float → float) (s : State) (e : Event) : State :=
  match e with
  | TypeLoanAmount v => apply_updates s [setLoanAmount v]
  | TypeInterestRate v => apply_updates s [setInterestRate v]
  | TypeLoanTerm v => apply_updates s [setLoanTerm v]
  | ClickRepayment => apply_updates s [setMortgageType repayment]
  | ClickInterestOnly => apply_updates s [setMortgageType interest_only]
  | ClickCalculate => run (calculateMortgage pow) s
  | ClickReset => run handleReset s
  end.

(** The state after a sequence of events, from state [s]. *)
Definition after_events (pow : float → float → float) (s : State) (es : list Event)
  : State :=
  fold_left (on_event pow) es s.

(** Typing and choosing a mortgage type, as opposed to Calculate and Reset. *)
Definition is_edit (e : Event) : bool :=
  match e with
  | ClickCalculate | ClickReset => false
  | _ => true
  end.

(** ** What is rendered

    The parts of the returned element that depend on the state: the message
    under each input, [submitted && errors.field && <p>{errors.field}</p>],
    and the results card, [result ? ... : ...].  The card shows the stored
    figures and a summary read from the current inputs; the numbers are kept
    as they are handed to [formatCurrency] and [toFixed]. *)

Definition shown_error (s : State) (field : string) : option string :=
  if submitted s then
    match errors s !! field with
    | Some msg => if JS.falsy msg then None else Some msg
    | None => None
    end
  else None.

Record ResultsCard := mkCard {
  cardFigures : CalculationResult;
  cardLoanAmount : float;
  cardInterestRate : float;
  cardLoanTerm : string;
  cardMortgageType : string
}.

Record View := mkView {
  loanAmountMessage : option string;
  interestRateMessage : option string;
  loanTermMessage : option string;
  resultsCard : option ResultsCard
}.

Definition render (s : State) : View :=
  mkView (shown_error s "loanAmount")
         (shown_error s "interestRate")
         (shown_error s "loanTerm")
         (match result s with
          | Some r =>
              Some (mkCard r (JS.Number (loanAmount s)) (JS.Number (interestRate s))
                      (loanTerm s)
                      (match mortgageType s with
                       | repayment => "Repayment"
                       | interest_only => "Interest Only"
                       end))
          | None => None
          end).

(** The code points of [StrWhiteSpaceChar]: TAB, LF, VT, FF, CR, the Unicode
    space separators (SP, U+00A0, U+1680, U+2000 to U+200A, U+202F, U+205F,
    U+3000), the line and paragraph separators U+2028 and U+2029, and
    U+FEFF. *)
Definition white_space : list N :=
  [0x9; 0xA; 0xB; 0xC; 0xD; 0x20; 0xA0; 0x1680;
   0x2000; 0x2001; 0x2002; 0x2003; 0x2004; 0x2005; 0x2006; 0x2007; 0x2008;
   0x2009; 0x200A; 0x2028; 0x2029; 0x202F; 0x205F; 0x3000; 0xFEFF]%N.

(** The UTF-8 bytes of a code point below 0x10000. *)
Definition utf8 (c : N) : list ascii :=
  (if c <? 0x80 then [ascii_of_N c]
   else if c <? 0x800 then
     [ascii_of_N (0xC0 + c / 0x40); ascii_of_N (0x80 + c mod 0x40)]
   else
     [ascii_of_N (0xE0 + c / 0x1000); ascii_of_N (0x80 + c / 0x40 mod 0x40);
      ascii_of_N (0x80 + c mod 0x40)])%N.

(** The text made of the given code points. *)
Definition text_of (cs : list N) : string :=
  string_of_list_ascii (concat (map utf8 cs)).

(** [strip_prefix p l] is what follows [p] in [l], when [l] starts with [p]. *)
Fixpoint strip_prefix (p l : list ascii) : option (list ascii) :=
  match p, l with
  | [], _ => Some l
  | a :: p', b :: l' => if Ascii.eqb a b then strip_prefix p' l' else None
  | _ :: _, [] => None
  end.

(** [l] is a sequence of at most [k] white-space characters. *)
Fixpoint white_space_only (k : nat) (l : list ascii) : bool :=
  match l, k with
  | [], _ => true
  | _ :: _, O => false
  | _ :: _, S k' =>
      existsb (λ c, match strip_prefix (utf8 c) l with
                    | Some r => white_space_only k' r
                    | None => false
                    end) white_space
  end.

(** A text made of white-space characters only. *)
Definition all_space (t : string) : bool :=
  white_space_only (String.length t) (list_ascii_of_string t).

(** The messages [validateForm] can set under a key. *)
Definition known_message (field msg : string) : bool :=
  if String.eqb field "loanAmount" then
    String.eqb msg "Loan amount is required"
    || String.eqb msg "Please enter a valid loan amount"
  else if String.eqb field "interestRate" then
    String.eqb msg "Interest rate is required"
    || String.eqb msg "Please enter a valid interest rate"
  else if String.eqb field "loanTerm" then
    String.eqb msg "Loan term is required"
    || String.eqb msg "Please enter a valid loan term in years"
  else false.

(** Neither negative nor NaN: a zero, a positive finite value or +Infinity. *)
Definition SFge0 (x : spec_float) : bool :=
  match x with
  | S754_zero _ | S754_finite false _ _ | S754_infinity false => true
  | _ => false
  end.
(** ** Binary64 arithmetic: classification and comparison *)

Section FloatBasics.
Local Open Scope float_scope.

Lemma SFcompare_refl (x : spec_float) :
  x ≠ S754_nan → SFcompare x x = Some Eq.
Proof.
  destruct x as [[]|[]| |[] m e]; simpl; try congruence; intros _;
    rewrite Z.compare_refl, Pos.compare_cont_refl; reflexivity.
Qed.

Lemma is_nan_spec (x : float) :
  is_nan x = true ↔ Prim2SF x = S754_nan.
Proof.
  unfold is_nan. rewrite FloatAxioms.eqb_spec. unfold SFeqb. split.
  - intros H. destruct (Prim2SF x) eqn:E; try reflexivity;
      rewrite SFcompare_refl in H by discriminate; discriminate.
  - intros ->. reflexivity.
Qed.

Lemma is_nan_false (x : float) :
  is_nan x = false ↔ Prim2SF x ≠ S754_nan.
Proof.
  pose proof (is_nan_spec x) as [H1 H2].
  destruct (is_nan x); split; intros H; try congruence.
  - exfalso. apply H. auto.
  - intros E. specialize (H2 E). discriminate.
Qed.

Lemma Prim2SF_zero : Prim2SF 0 = S754_zero false.
Proof. reflexivity. Qed.

Lemma eqb_zero_spec (x : float) :
  (x =? 0) = true ↔ ∃ s, Prim2SF x = S754_zero s.
Proof.
  rewrite FloatAxioms.eqb_spec, Prim2SF_zero. unfold SFeqb.
  destruct (Prim2SF x) as [s|[]| |[] m e]; simpl; split;
    try discriminate; eauto; intros [s' Hs]; discriminate.
Qed.

Lemma eqb_zero_not_negative (x : float) :
  (x =? 0) = true → is_nan x = false ∧ (x <? 0) = false ∧ (x <=? 0) = true.
Proof.
  intros [s Hs]%eqb_zero_spec. split; [|split].
  - apply is_nan_false. congruence.
  - rewrite FloatAxioms.ltb_spec, Hs, Prim2SF_zero. reflexivity.
  - rewrite FloatAxioms.leb_spec, Hs, Prim2SF_zero. reflexivity.
Qed.

End FloatBasics.

(** ** Signs of rounded results *)

Section Signs.
Local Open Scope Z_scope.

Lemma iter_pos_inv {A} (Q : A → Prop) (f : A → A) :
  (∀ x, Q x → Q (f x)) → ∀ n x, Q x → Q (SpecFloat.iter_pos f n x).
Proof.
  intros Hf n. induction n as [n IH|n IH|]; intros x Hx; simpl; auto.
Qed.

Lemma shr_1_nonneg (r : shr_record) : 0 ≤ shr_m r → 0 ≤ shr_m (shr_1 r).
Proof.
  destruct r as [m r s]. simpl. intros Hm.
  destruct m as [|[p|p|]|p]; simpl; lia.
Qed.

Lemma shr_nonneg (r : shr_record) (e n : Z) :
  0 ≤ shr_m r → 0 ≤ shr_m (shr r e n).1.
Proof.
  intros Hr. unfold shr. destruct n; simpl; auto.
  apply (iter_pos_inv (λ r, 0 ≤ shr_m r)); auto using shr_1_nonneg.
Qed.

Lemma shr_fexp_nonneg (m e : Z) (l : location) :
  0 ≤ m → 0 ≤ shr_m (shr_fexp prec emax m e l).1.
Proof.
  intros Hm. unfold shr_fexp. apply shr_nonneg.
  destruct l as [|[]]; exact Hm.
Qed.

Lemma round_nearest_even_nonneg (m : Z) (l : location) :
  0 ≤ m → 0 ≤ round_nearest_even m l.
Proof.
  intros Hm. unfold round_nearest_even.
  destruct l as [|[]]; try destruct (Z.even m); lia.
Qed.

Lemma binary_round_aux_sign (s : bool) (m e : Z) (l : location) :
  0 ≤ m → sign_is s (binary_round_aux prec emax s m e l).
Proof.
  intros Hm. unfold binary_round_aux.
  pose proof (shr_fexp_nonneg m e l Hm) as H1.
  destruct (shr_fexp prec emax m e l) as [r1 e1]. simpl in H1.
  pose proof (shr_fexp_nonneg _ e1 loc_Exact
                (round_nearest_even_nonneg _ (loc_of_shr_record r1) H1)) as H2.
  destruct (shr_fexp prec emax _ e1 loc_Exact) as [r2 e2]. simpl in H2.
  destruct (shr_m r2) as [|p|p]; simpl; [reflexivity| |lia].
  destruct (e2 <=? emax - prec); reflexivity.
Qed.

Lemma binary_round_sign (s : bool) (m : positive) (e : Z) :
  sign_is s (binary_round prec emax s m e).
Proof.
  unfold binary_round. destruct (shl_align m e _) as [mz ez].
  apply binary_round_aux_sign. lia.
Qed.

Lemma binary_normalize_nn (m e : Z) (sz : bool) :
  0 ≤ m → sign_is (if m =? 0 then sz else false) (binary_normalize prec emax m e sz).
Proof.
  intros Hm. destruct m as [|p|p]; simpl; [reflexivity| |lia].
  apply binary_round_sign.
Qed.

Lemma SFdiv_core_nonneg (m1 m2 : positive) (e1 e2 : Z) :
  0 ≤ (SFdiv_core_binary prec emax (Z.pos m1) e1 (Z.pos m2) e2).1.1.
Proof.
  unfold SFdiv_core_binary.
  set (s := _ - _ - _).
  set (m' := match s with Z.pos _ => _ | _ => _ end).
  assert (0 ≤ m') as Hm'.
  { subst m'. destruct s; try lia. apply Z.shiftl_nonneg. lia. }
  pose proof (Z_div_mod m' (Z.pos m2) ltac:(lia)) as Hd.
  destruct (Z.div_eucl m' (Z.pos m2)) as [q r]. simpl. nia.
Qed.

Lemma SFdiv_sign (sx sy : bool) (x y : spec_float) :
  sign_is sx x → sign_is sy y →
  SFdiv prec emax x y = S754_nan ∨ sign_is (xorb sx sy) (SFdiv prec emax x y).
Proof.
  destruct x as [s1|s1| |s1 m1 e1], y as [s2|s2| |s2 m2 e2]; simpl;
    try tauto; intros <- <-; auto.
  right. pose proof (SFdiv_core_nonneg m1 m2 e1 e2) as Hq.
  destruct (SFdiv_core_binary _ _ _ _ _ _) as [[q e'] l]. simpl in Hq.
  apply binary_round_aux_sign. exact Hq.
Qed.

Lemma SFsp_cases (x : spec_float) :
  SFsp x = true ↔ x = S754_nan ∨ sign_is false x.
Proof.
  destruct x as [[]|[]| |[] m e]; simpl; split; intros H; try done; try tauto;
    destruct H; done.
Qed.

Lemma SFsp_nn (x : spec_float) : SFsp x = true → SFnn x = true.
Proof. destruct x as [[]|[]| |[] m e]; done. Qed.

Lemma SFpos_sp (x : spec_float) : SFpos x = true → SFsp x = true.
Proof. destruct x as [[]|[]| |[] m e]; done. Qed.

(** Products and quotients of values that are not negative. *)
Lemma SFmul_nn (x y : spec_float) :
  SFnn x = true → SFnn y = true → SFnn (SFmul prec emax x y) = true.
Proof.
  destruct x as [s1|[]| |[] m1 e1], y as [s2|[]| |[] m2 e2]; simpl; try done.
  intros _ _.
  pose proof (binary_round_aux_sign false (Z.pos (m1 * m2)) (e1 + e2) loc_Exact
                ltac:(lia)) as H.
  destruct (binary_round_aux _ _ _ _ _ _) as [|[]| |[] ? ?]; done.
Qed.

Lemma SFdiv_nn (x y : spec_float) :
  SFnn x = true → SFsp y = true → SFnn (SFdiv prec emax x y) = true.
Proof.
  destruct x as [s1|[]| |[] m1 e1], y as [[]|[]| |[] m2 e2]; simpl; try done.
  intros _ _.
  pose proof (SFdiv_sign false false (S754_finite false m1 e1)
                (S754_finite false m2 e2) eq_refl eq_refl) as [H|H];
    simpl in H; [by rewrite H|].
  destruct (SFdiv_core_binary _ _ _ _ _ _) as [[q e'] l].
  destruct (binary_round_aux _ _ _ _ _ _) as [|[]| |[] ? ?]; done.
Qed.

Lemma SFadd_nn (x y : spec_float) :
  SFnn x = true → SFnn y = true → SFnn (SFadd prec emax x y) = true.
Proof.
  destruct x as [[]|[]| |[] m1 e1], y as [[]|[]| |[] m2 e2]; simpl; try done.
  intros _ _.
  match goal with
  | |- SFnn (binary_round _ _ false ?m ?e) = true =>
      pose proof (binary_round_sign false m e) as H;
      destruct (binary_round prec emax false m e) as [|[]| |[] ? ?]; done
  end.
Qed.

End Signs.

(** ** The primitive operations on values that are not negative *)

Section PrimSigns.
Local Open Scope float_scope.

Lemma ltb_zero_nn (x : float) :
  (x <? 0) = false ↔ SFnn (Prim2SF x) = true.
Proof.
  rewrite FloatAxioms.ltb_spec, Prim2SF_zero. unfold SFltb.
  destruct (Prim2SF x) as [[]|[]| |[] m e]; simpl; split; congruence.
Qed.

Lemma leb_zero_pos (x : float) :
  is_nan x = false → (x <=? 0) = false → SFpos (Prim2SF x) = true.
Proof.
  intros Hn%is_nan_false. rewrite FloatAxioms.leb_spec, Prim2SF_zero.
  unfold SFleb.
  destruct (Prim2SF x) as [[]|[]| |[] m e]; simpl; congruence.
Qed.

Lemma mul_nn (x y : float) :
  SFnn (Prim2SF x) = true → SFnn (Prim2SF y) = true →
  SFnn (Prim2SF (x * y)) = true.
Proof. rewrite FloatAxioms.mul_spec. apply SFmul_nn. Qed.

Lemma div_nn (x y : float) :
  SFnn (Prim2SF x) = true → SFsp (Prim2SF y) = true →
  SFnn (Prim2SF (x / y)) = true.
Proof. rewrite FloatAxioms.div_spec. apply SFdiv_nn. Qed.

Lemma add_nn (x y : float) :
  SFnn (Prim2SF x) = true → SFnn (Prim2SF y) = true →
  SFnn (Prim2SF (x + y)) = true.
Proof. rewrite FloatAxioms.add_spec. apply SFadd_nn. Qed.

Lemma of_uint63_sp (n : int) : SFsp (Prim2SF (of_uint63 n)) = true.
Proof.
  rewrite of_uint63_spec.
  pose proof (to_Z_bounded n) as [Hn _].
  pose proof (binary_normalize_nn (to_Z n) 0 false Hn) as H.
  apply SFsp_cases. right. by destruct (_ =? _)%Z.
Qed.

Lemma Math_round_nn (x : float) :
  SFnn (Prim2SF x) = true → SFnn (Prim2SF (JS.Math_round x)) = true.
Proof.
  intros Hx. unfold JS.Math_round.
  destruct (Prim2SF x) as [s|s| |s m e] eqn:E; try by rewrite E.
  destruct (0 <=? e)%Z; [by rewrite E|].
  destruct s; [discriminate|]. apply SFsp_nn, of_uint63_sp.
Qed.

Lemma Prim2SF_100 : Prim2SF 100 = S754_finite false 7036874417766400 (-46).
Proof. reflexivity. Qed.

Lemma Prim2SF_12 : Prim2SF 12 = S754_finite false 6755399441055744 (-49).
Proof. reflexivity. Qed.

Lemma Prim2SF_1 : Prim2SF 1 = S754_finite false 4503599627370496 (-52).
Proof. reflexivity. Qed.

Lemma round2_nn (x : float) :
  SFnn (Prim2SF x) = true → SFnn (Prim2SF (Spec.round2 x)) = true.
Proof.
  intros Hx. unfold Spec.round2.
  apply div_nn; [|by rewrite Prim2SF_100].
  apply Math_round_nn, mul_nn; [done|by rewrite Prim2SF_100].
Qed.

Lemma is_finite_spec (x : float) :
  is_finite x = true →
  match Prim2SF x with
  | S754_zero _ | S754_finite _ _ _ => True
  | _ => False
  end.
Proof.
  unfold is_finite, is_infinity.
  intros [Hn Hi]%negb_true_iff%orb_false_iff.
  apply is_nan_false in Hn.
  rewrite FloatAxioms.eqb_spec, abs_spec in Hi.
  change (Prim2SF infinity) with (S754_infinity false) in Hi.
  by destruct (Prim2SF x) as [|[]| |].
Qed.

Lemma mul_zero_r (x r : float) :
  is_finite x = true → (r =? 0) = true → (x * r =? 0) = true.
Proof.
  intros Hx%is_finite_spec [s Hr]%eqb_zero_spec.
  apply eqb_zero_spec. rewrite FloatAxioms.mul_spec, Hr.
  destruct (Prim2SF x) as [sx| | |sx m e]; try done; by eexists.
Qed.

Lemma round2_zero (x : float) :
  (x =? 0) = true → (Spec.round2 x =? 0) = true.
Proof.
  intros [s Hx]%eqb_zero_spec. apply eqb_zero_spec. unfold Spec.round2.
  assert (Prim2SF (x * 100) = S754_zero (xorb s false)) as H1
    by (by rewrite FloatAxioms.mul_spec, Hx, Prim2SF_100).
  assert (JS.Math_round (x * 100) = x * 100) as ->
    by (unfold JS.Math_round; by rewrite H1).
  rewrite FloatAxioms.div_spec, H1, Prim2SF_100. by eexists.
Qed.

Lemma not_lt_one_nn (x : float) :
  (x <? 1) = false → SFnn (Prim2SF x) = true.
Proof.
  rewrite FloatAxioms.ltb_spec, Prim2SF_1.
  by destruct (Prim2SF x) as [sx|[]| |[] m e].
Qed.

End PrimSigns.

(** ** Digits, exponents and canonical mantissas *)

Section Canonical.
Local Open Scope Z_scope.

Lemma fexp_eq (k : Z) : fexp prec emax k = Z.max (k - 53) (-1074).
Proof. reflexivity. Qed.

Lemma fexp_mono (j k : Z) : j ≤ k → fexp prec emax j ≤ fexp prec emax k.
Proof. rewrite !fexp_eq. lia. Qed.

Lemma digits2_pos_size (p : positive) : digits2_pos p = Pos.size p.
Proof. induction p; simpl; congruence. Qed.

Lemma digits2_pos_bounds (p : positive) :
  2 ^ (Z.pos (digits2_pos p) - 1) ≤ Z.pos p < 2 ^ Z.pos (digits2_pos p).
Proof.
  rewrite digits2_pos_size.
  pose proof (Pos.size_gt p) as Hgt. pose proof (Pos.size_le p) as Hle.
  apply Pos2Z.pos_lt_pos in Hgt. apply Pos2Z.pos_le_pos in Hle.
  rewrite Pos2Z.inj_pow in Hgt, Hle.
  split; [|exact Hgt].
  replace (Z.pos (Pos.size p)) with (Z.succ (Z.pos (Pos.size p) - 1)) in Hle by lia.
  rewrite Z.pow_succ_r in Hle by lia. lia.
Qed.

Lemma Zdigits2_nonneg (z : Z) : 0 ≤ Zdigits2 z.
Proof. destruct z; simpl; lia. Qed.

Lemma Zdigits2_bounds (z : Z) :
  0 < z → 2 ^ (Zdigits2 z - 1) ≤ z < 2 ^ Zdigits2 z.
Proof.
  destruct z as [|p|p]; try lia. intros _. apply digits2_pos_bounds.
Qed.

Lemma Zdigits2_pos (z : Z) : 0 < z → 0 < Zdigits2 z.
Proof. destruct z; simpl; lia. Qed.

(** The number of digits is the only [d] with [2^(d-1) <= z < 2^d]. *)
Lemma Zdigits2_unique (z d : Z) :
  2 ^ (d - 1) ≤ z < 2 ^ d → 0 < z → Zdigits2 z = d.
Proof.
  intros [Hlo Hhi] Hz.
  pose proof (Zdigits2_bounds z Hz) as [Hlo' Hhi'].
  pose proof (Zdigits2_pos z Hz) as Hd'.
  assert (0 < d) as Hd.
  { destruct (Z.ltb_spec 0 d) as [|Hn]; [done|].
    destruct (Z.eq_dec d 0) as [->|Hd0]; [simpl in Hhi; lia|].
    rewrite Z.pow_neg_r in Hhi by lia. lia. }
  destruct (Z.lt_trichotomy (Zdigits2 z) d) as [Hlt|[Heq|Hgt]]; [|done|].
  - assert (2 ^ Zdigits2 z ≤ 2 ^ (d - 1)) by (apply Z.pow_le_mono_r; lia). lia.
  - assert (2 ^ d ≤ 2 ^ (Zdigits2 z - 1)) by (apply Z.pow_le_mono_r; lia). lia.
Qed.

(** What validity says of a finite value. *)
Lemma valid_finite (s : bool) (m : positive) (e : Z) :
  valid_binary (S754_finite s m e) = true →
  -1074 ≤ e ≤ 971
  ∧ Z.pos (digits2_pos m) ≤ 53
  ∧ (-1074 < e → Z.pos (digits2_pos m) = 53)
  ∧ Z.pos m < 2 ^ 53
  ∧ (-1074 < e → 2 ^ 52 ≤ Z.pos m).
Proof.
  simpl. unfold bounded, canonical_mantissa. rewrite fexp_eq.
  intros [Hc He]%andb_true_iff. apply Z.eqb_eq in Hc. apply Z.leb_le in He.
  change (emax - prec) with 971 in He.
  pose proof (digits2_pos_bounds m) as [Hlo Hhi].
  assert (Z.pos (digits2_pos m) ≤ 53) as Hd by lia.
  assert (-1074 < e → Z.pos (digits2_pos m) = 53) as Hn by lia.
  repeat split; try lia.
  - assert (2 ^ Z.pos (digits2_pos m) ≤ 2 ^ 53) by (apply Z.pow_le_mono_r; lia).
    lia.
  - intros H. rewrite (Hn H) in Hlo. exact Hlo.
Qed.

Lemma Prim2SF_finite (x : float) (s : bool) (m : positive) (e : Z) :
  Prim2SF x = S754_finite s m e →
  -1074 ≤ e ≤ 971
  ∧ Z.pos (digits2_pos m) ≤ 53
  ∧ (-1074 < e → Z.pos (digits2_pos m) = 53)
  ∧ Z.pos m < 2 ^ 53
  ∧ (-1074 < e → 2 ^ 52 ≤ Z.pos m).
Proof.
  intros E. apply (valid_finite s). rewrite <- E. apply Prim2SF_valid.
Qed.

Lemma shl_align_value (m : positive) (e e' : Z) :
  e' ≤ e → Z.pos (shl_align m e e').1 = Z.pos m * 2 ^ (e - e').
Proof.
  intros He. unfold shl_align.
  destruct (e' - e) as [|d|d] eqn:E; simpl.
  - replace (e - e') with 0 by lia. lia.
  - lia.
  - replace (e - e') with (Z.pos d) by lia.
    change (Pos.iter xO m d) with (shift_pos d m).
    rewrite shift_pos_correct, Zpower_pos_nat, Zpower_nat_Z.
    rewrite positive_nat_Z. lia.
Qed.

End Canonical.

(** ** Rounding to nearest even, characterised on integers *)

Section Rounding.
Local Open Scope Z_scope.

Lemma shr_1_div2 (m : Z) (r s : bool) :
  0 ≤ m →
  shr_1 (Build_shr_record m r s) = Build_shr_record (Z.div2 m) (Z.odd m) (r || s).
Proof. destruct m as [|[p|p|]|p]; simpl; try lia; reflexivity. Qed.

Lemma div_mod_double (N K : Z) :
  0 ≤ N → 0 < K →
  N / (2 * K) = Z.div2 (N / K)
  ∧ N mod (2 * K) = N mod K + K * Z.b2z (Z.odd (N / K)).
Proof.
  intros HN HK.
  pose proof (Z.div_mod N K ltac:(lia)) as Hdm.
  pose proof (Z.mod_pos_bound N K HK) as Hr.
  pose proof (Z.div2_odd (N / K)) as Hq.
  assert (0 ≤ Z.b2z (Z.odd (N / K)) ≤ 1) as Hb by (destruct (Z.odd _); simpl; lia).
  assert (N = 2 * K * Z.div2 (N / K) + (N mod K + K * Z.b2z (Z.odd (N / K)))) as HN2.
  { rewrite Hdm at 1. rewrite Hq at 1. ring. }
  assert (0 ≤ N mod K + K * Z.b2z (Z.odd (N / K)) < 2 * K) as Hb2 by nia.
  split.
  - symmetry. eapply Z.div_unique_pos; eauto.
  - symmetry. eapply Z.mod_unique_pos; eauto.
Qed.

Lemma shr_1_rec_of (N K : Z) :
  0 ≤ N → 0 < K → shr_1 (rec_of N K) = rec_of N (2 * K).
Proof.
  intros HN HK. unfold rec_of.
  rewrite shr_1_div2 by (apply Z.div_pos; lia).
  destruct (div_mod_double N K HN HK) as [-> ->].
  pose proof (Z.mod_pos_bound N K HK) as Hr.
  f_equal.
  - destruct (Z.odd (N / K)); simpl; symmetry.
    + apply Z.leb_le. lia.
    + apply Z.leb_gt. lia.
  - destruct (Z.odd (N / K)); simpl Z.b2z;
      repeat match goal with
             | |- context [?a <=? ?b] => destruct (Z.leb_spec a b)
             | |- context [?a =? ?b] => destruct (Z.eqb_spec a b)
             end; simpl; try reflexivity; lia.
Qed.

Lemma pow2_xO (p : positive) : 2 ^ Z.pos p~0 = 2 ^ Z.pos p * 2 ^ Z.pos p.
Proof. rewrite <- Z.pow_add_r by lia. f_equal. lia. Qed.

Lemma pow2_xI (p : positive) : 2 ^ Z.pos p~1 = 2 * (2 ^ Z.pos p * 2 ^ Z.pos p).
Proof.
  rewrite <- Z.pow_add_r by lia. rewrite <- Z.pow_succ_r by lia. f_equal. lia.
Qed.

Lemma pow2_pos (n : Z) : 0 ≤ n → 0 < 2 ^ n.
Proof. intros. apply Z.pow_pos_nonneg; lia. Qed.

Lemma iter_shr_1_rec_of (p : positive) (N K : Z) :
  0 ≤ N → 0 < K →
  SpecFloat.iter_pos shr_1 p (rec_of N K) = rec_of N (K * 2 ^ Z.pos p).
Proof.
  intros HN. revert K.
  induction p as [p IH|p IH|]; intros K HK.
  - change (SpecFloat.iter_pos shr_1 p~1 (rec_of N K))
      with (SpecFloat.iter_pos shr_1 p (SpecFloat.iter_pos shr_1 p (shr_1 (rec_of N K)))).
    pose proof (pow2_pos (Z.pos p) ltac:(lia)) as Hp.
    rewrite shr_1_rec_of, IH, IH by nia.
    f_equal. rewrite pow2_xI. ring.
  - change (SpecFloat.iter_pos shr_1 p~0 (rec_of N K))
      with (SpecFloat.iter_pos shr_1 p (SpecFloat.iter_pos shr_1 p (rec_of N K))).
    pose proof (pow2_pos (Z.pos p) ltac:(lia)) as Hp.
    rewrite IH, IH by nia.
    f_equal. rewrite pow2_xO. ring.
  - change (SpecFloat.iter_pos shr_1 1 (rec_of N K)) with (shr_1 (rec_of N K)).
    rewrite shr_1_rec_of by lia. f_equal. change (2 ^ 1) with 2. ring.
Qed.

Lemma shr_rec_of (N K e n : Z) :
  0 ≤ N → 0 < K →
  shr (rec_of N K) e n = (rec_of N (K * 2 ^ Z.max 0 n), e + Z.max 0 n).
Proof.
  intros HN HK. unfold shr. destruct n as [|p|p].
  - simpl. rewrite Z.mul_1_r, Z.add_0_r. reflexivity.
  - rewrite iter_shr_1_rec_of by lia.
    replace (Z.max 0 (Z.pos p)) with (Z.pos p) by lia. reflexivity.
  - replace (Z.max 0 (Z.neg p)) with 0 by lia.
    simpl. rewrite Z.mul_1_r, Z.add_0_r. reflexivity.
Qed.

Lemma new_location_rec_of (N D : Z) :
  0 ≤ N → 0 < D →
  shr_record_of_loc (N / D) (new_location D (N mod D)) = rec_of N D.
Proof.
  intros HN HD. pose proof (Z.mod_pos_bound N D HD) as Hr.
  unfold rec_of, new_location, new_location_even, new_location_odd.
  set (r := N mod D) in *.
  assert (Z.even D = false → 2 * r ≠ D) as Hodd.
  { intros Hev E. rewrite <- E, Z.even_mul in Hev. discriminate. }
  destruct (Z.even D); destruct (Z.eqb_spec r 0) as [E0|E0];
    try destruct (Z.compare_spec (2 * r) D);
    try destruct (Z.compare_spec (2 * r + 1) D);
    destruct (Z.leb_spec D (2 * r));
    destruct (Z.eqb_spec (2 * r) D); simpl;
    try reflexivity; try lia; exfalso; by apply Hodd.
Qed.

Lemma exact_rec_of (m : Z) : shr_record_of_loc m loc_Exact = rec_of m 1.
Proof.
  unfold rec_of. rewrite Z.div_1_r, Z.mod_1_r. reflexivity.
Qed.

Lemma round_rec_of (N K : Z) :
  0 < K →
  round_nearest_even (shr_m (rec_of N K)) (loc_of_shr_record (rec_of N K))
  = rne N K.
Proof.
  intros HK. pose proof (Z.mod_pos_bound N K HK) as Hr.
  unfold rec_of, rne. simpl.
  destruct (Z.leb_spec K (2 * (N mod K)));
    destruct (Z.eqb_spec (N mod K) 0);
    destruct (Z.eqb_spec (2 * (N mod K)) K);
    destruct (Z.ltb_spec (2 * (N mod K)) K);
    destruct (Z.ltb_spec K (2 * (N mod K))); simpl; try lia; reflexivity.
Qed.

Lemma rne_bounds (N K : Z) : N / K ≤ rne N K ≤ N / K + 1.
Proof.
  unfold rne. repeat case_match; lia.
Qed.

Lemma rne_nonneg (N K : Z) : 0 ≤ N → 0 < K → 0 ≤ rne N K.
Proof.
  intros HN HK. pose proof (rne_bounds N K).
  pose proof (Z.div_pos N K HN HK). lia.
Qed.

(** Rounding is monotone in the value [N / K]. *)
Lemma rne_mono (N1 K1 N2 K2 : Z) :
  0 ≤ N1 → 0 < K1 → 0 < K2 → N1 * K2 ≤ N2 * K1 →
  rne N1 K1 ≤ rne N2 K2.
Proof.
  intros HN1 HK1 HK2 Hle.
  pose proof (Z.div_mod N1 K1 ltac:(lia)) as Hd1.
  pose proof (Z.div_mod N2 K2 ltac:(lia)) as Hd2.
  pose proof (Z.mod_pos_bound N1 K1 HK1) as Hr1.
  pose proof (Z.mod_pos_bound N2 K2 HK2) as Hr2.
  assert (N1 / K1 ≤ N2 / K2) as Hq.
  { apply Z.div_le_lower_bound; [lia|].
    assert (K1 * (N1 / K1) ≤ N1) by lia.
    apply (Zmult_le_reg_r _ _ K1); [lia|]. nia. }
  pose proof (rne_bounds N1 K1) as Hb1. pose proof (rne_bounds N2 K2) as Hb2.
  destruct (Z.eq_dec (N1 / K1) (N2 / K2)) as [Heq|Hne]; [|lia].
  assert (N1 mod K1 * K2 ≤ N2 mod K2 * K1) as Hrem.
  { rewrite Hd1, Hd2 in Hle. rewrite Heq in Hle. nia. }
  unfold rne in *. rewrite <- Heq in *.
  set (q := N1 / K1) in *. set (r1 := N1 mod K1) in *. set (r2 := N2 mod K2) in *.
  destruct (Z.ltb_spec (2 * r1) K1); [repeat case_match; lia|].
  destruct (Z.ltb_spec (2 * r2) K2); [nia|].
  destruct (Z.ltb_spec K2 (2 * r2)); [repeat case_match; lia|].
  destruct (Z.ltb_spec K1 (2 * r1)); [nia|].
  reflexivity.
Qed.

(** [binary_round_aux] on a value located by a division. *)
Lemma binary_round_aux_char (s : bool) (N D E : Z) :
  0 ≤ N → 0 < D →
  binary_round_aux prec emax s (N / D) E (new_location D (N mod D))
  = finish s (round_mant N D E).
Proof.
  intros HN HD. unfold binary_round_aux, shr_fexp, round_mant, finish.
  rewrite new_location_rec_of, shr_rec_of by assumption.
  set (n := Z.max 0 _).
  assert (0 < D * 2 ^ n) as HK.
  { apply Z.mul_pos_pos; [lia|]. apply Z.pow_pos_nonneg; lia. }
  rewrite round_rec_of by assumption.
  rewrite exact_rec_of, shr_rec_of by (try apply rne_nonneg; lia).
  reflexivity.
Qed.

Lemma binary_round_aux_exact (s : bool) (M E : Z) :
  0 ≤ M →
  binary_round_aux prec emax s M E loc_Exact = finish s (round_mant M 1 E).
Proof.
  intros HM.
  rewrite <- (binary_round_aux_char s M 1 E) by lia.
  rewrite Z.div_1_r, Z.mod_1_r. reflexivity.
Qed.

End Rounding.

(** ** Rounding is monotone *)

Section Monotone.
Local Open Scope Z_scope.

Lemma Zdigits2_lt (z : Z) : 0 ≤ z → z < 2 ^ Zdigits2 z.
Proof.
  intros Hz. destruct (Z.eq_dec z 0) as [->|Hn]; [reflexivity|].
  apply Zdigits2_bounds. lia.
Qed.

Lemma Zdigits2_le_53 (z : Z) : 0 ≤ z < 2 ^ 53 → Zdigits2 z ≤ 53.
Proof.
  intros [Hz Hlt]. destruct (Z.eq_dec z 0) as [->|Hn]; [simpl; lia|].
  pose proof (Zdigits2_bounds z ltac:(lia)) as [Hlo _].
  destruct (Z.le_gt_cases (Zdigits2 z) 53) as [|Hgt]; [done|].
  assert (2 ^ 53 ≤ 2 ^ (Zdigits2 z - 1)) by (apply Z.pow_le_mono_r; lia). lia.
Qed.

Lemma pow2_add (a b : Z) : 0 ≤ a → 0 ≤ b → 2 ^ (a + b) = 2 ^ a * 2 ^ b.
Proof. intros. apply Z.pow_add_r; lia. Qed.

Lemma pow2_le (a b : Z) : 0 ≤ a ≤ b → 2 ^ a ≤ 2 ^ b.
Proof. intros. apply Z.pow_le_mono_r; lia. Qed.

Lemma pow2_lt_inv (a b : Z) : 0 ≤ a → 0 ≤ b → 2 ^ a < 2 ^ b → a < b.
Proof. intros Ha Hb H. apply (Z.pow_lt_mono_r_iff 2); lia. Qed.

(** The first rounding step gives a mantissa of at most 53 bits, plus one. *)
Lemma rne_le_2p53 (N D E : Z) :
  0 ≤ N → 0 < D →
  E ≤ fexp prec emax (Zdigits2 (N / D) + E) →
  rne N (D * 2 ^ (fexp prec emax (Zdigits2 (N / D) + E) - E)) ≤ 2 ^ 53.
Proof.
  intros HN HD HE. set (F := fexp prec emax _) in *.
  pose proof (Z.div_pos N D HN HD) as Hq.
  pose proof (Zdigits2_lt (N / D) Hq) as Hlt.
  pose proof (Zdigits2_nonneg (N / D)) as Hdg.
  pose proof (rne_bounds N (D * 2 ^ (F - E))) as [_ Hub].
  rewrite <- Z.div_div in Hub by (try apply pow2_pos; lia).
  assert (N / D / 2 ^ (F - E) < 2 ^ 53); [|lia].
  apply Z.div_lt_upper_bound; [apply pow2_pos; lia|].
  rewrite <- pow2_add by lia.
  assert (2 ^ Zdigits2 (N / D) ≤ 2 ^ (F - E + 53)); [|lia].
  apply pow2_le. subst F. rewrite fexp_eq in *. lia.
Qed.

Lemma round_mant_eq (N D E : Z) :
  0 ≤ N → 0 < D →
  E ≤ fexp prec emax (Zdigits2 (N / D) + E) →
  round_mant N D E
  = let F := fexp prec emax (Zdigits2 (N / D) + E) in
    let m1 := rne N (D * 2 ^ (F - E)) in
    if m1 =? 2 ^ 53 then (2 ^ 52, F + 1) else (m1, F).
Proof.
  intros HN HD HE. pose proof (rne_le_2p53 N D E HN HD HE) as Hm.
  unfold round_mant. cbv zeta.
  set (F := fexp prec emax (Zdigits2 (N / D) + E)) in *.
  assert (-1074 ≤ F) as HF by (subst F; rewrite fexp_eq; lia).
  replace (Z.max 0 (F - E)) with (F - E) by lia.
  replace (E + (F - E)) with F by lia.
  set (m1 := rne N (D * 2 ^ (F - E))) in *.
  assert (0 ≤ m1) as Hm0.
  { apply rne_nonneg; [lia|]. apply Z.mul_pos_pos; [lia|apply pow2_pos; lia]. }
  destruct (Z.eqb_spec m1 (2 ^ 53)) as [E53|N53].
  - rewrite E53. change (Zdigits2 (2 ^ 53)) with 54.
    rewrite fexp_eq. replace (Z.max 0 (Z.max (54 + F - 53) (-1074) - F)) with 1 by lia.
    f_equal; lia.
  - pose proof (Zdigits2_le_53 m1 ltac:(lia)) as Hd.
    rewrite fexp_eq. replace (Z.max 0 (Z.max (Zdigits2 m1 + F - 53) (-1074) - F)) with 0 by lia.
    change (1 * 2 ^ 0) with 1. rewrite Z.div_1_r, Z.add_0_r. reflexivity.
Qed.

Lemma finish_le (ma ea mb eb : Z) :
  0 ≤ ma → 0 ≤ mb →
  ma = 0 ∨ (ea < eb ∧ 0 < mb) ∨ (ea = eb ∧ ma ≤ mb) →
  SFleb (finish false (ma, ea)) (finish false (mb, eb)) = true.
Proof.
  intros Ha Hb H. unfold finish. simpl.
  destruct ma as [|a|a], mb as [|b|b]; try lia.
  - reflexivity.
  - destruct (eb <=? emax - prec); reflexivity.
  - destruct (Z.leb_spec ea (emax - prec)), (Z.leb_spec eb (emax - prec));
      try reflexivity.
    + unfold SFleb, SFcompare.
      destruct H as [|[[Hlt _]|[-> Hle]]]; [lia| |].
      * apply Z.compare_lt_iff in Hlt. rewrite Hlt. reflexivity.
      * rewrite Z.compare_refl. change (Pos.compare_cont Eq a b) with (a ?= b)%positive.
        destruct (Pos.compare_spec a b); try reflexivity. lia.
    + destruct H as [|[|[? _]]]; lia.
Qed.

(** Ordered values have ordered exponents. *)
Lemma fexp_order (N1 D1 E1 N2 D2 E2 : Z) :
  0 ≤ N1 → 0 ≤ N2 → 0 < D1 → 0 < D2 →
  E1 ≤ fexp prec emax (Zdigits2 (N1 / D1) + E1) →
  N1 * D2 * 2 ^ (E1 - Z.min E1 E2) ≤ N2 * D1 * 2 ^ (E2 - Z.min E1 E2) →
  fexp prec emax (Zdigits2 (N1 / D1) + E1) ≤ fexp prec emax (Zdigits2 (N2 / D2) + E2).
Proof.
  intros HN1 HN2 HD1 HD2 HE1 Hle.
  remember (Z.min E1 E2) as Em eqn:HEm.
  destruct (Z.le_gt_cases (fexp prec emax (Zdigits2 (N1 / D1) + E1))
              (fexp prec emax (Zdigits2 (N2 / D2) + E2))) as [|Hgt]; [done|].
  exfalso. rewrite !fexp_eq in *.
  pose proof (Z.div_pos N1 D1 HN1 HD1) as Hq1.
  pose proof (Z.div_pos N2 D2 HN2 HD2) as Hq2.
  pose proof (Zdigits2_nonneg (N1 / D1)) as Hdg1.
  pose proof (Zdigits2_nonneg (N2 / D2)) as Hdg2.
  assert (0 < N1 / D1) as Hq1pos.
  { destruct (Z.eq_dec (N1 / D1) 0) as [E0|]; [|lia].
    rewrite E0 in *. simpl in *. lia. }
  pose proof (Zdigits2_bounds _ Hq1pos) as [Hlo1 _].
  pose proof (Zdigits2_lt _ Hq2) as Hhi2.
  set (d1 := Zdigits2 (N1 / D1)) in *. set (d2 := Zdigits2 (N2 / D2)) in *.
  assert (D1 * 2 ^ (d1 - 1) ≤ N1) as HloN.
  { pose proof (Z.mul_div_le N1 D1 HD1). nia. }
  assert (N2 < D2 * 2 ^ d2) as HhiN.
  { pose proof (Z.mod_pos_bound N2 D2 HD2). pose proof (Z.div_mod N2 D2 ltac:(lia)). nia. }
  assert (2 ^ (d1 - 1 + (E1 - Em)) < 2 ^ (d2 + (E2 - Em))) as Hpow.
  { rewrite !pow2_add by lia.
    pose proof (pow2_pos (E1 - Em) ltac:(lia)).
    pose proof (pow2_pos (E2 - Em) ltac:(lia)).
    pose proof (pow2_pos (d1 - 1) ltac:(lia)).
    pose proof (pow2_pos d2 ltac:(lia)).
    apply (Z.mul_lt_mono_pos_l (D1 * D2)); [nia|].
    apply Z.le_lt_trans with (N1 * D2 * 2 ^ (E1 - Em)); [nia|].
    apply Z.le_lt_trans with (N2 * D1 * 2 ^ (E2 - Em)); [lia|]. nia. }
  apply pow2_lt_inv in Hpow; lia.
Qed.

(** In the normal range the first rounding step keeps 53 bits. *)
Lemma rne_normal (N D E : Z) :
  0 ≤ N → 0 < D →
  E ≤ fexp prec emax (Zdigits2 (N / D) + E) →
  -1074 < fexp prec emax (Zdigits2 (N / D) + E) →
  2 ^ 52 ≤ rne N (D * 2 ^ (fexp prec emax (Zdigits2 (N / D) + E) - E)).
Proof.
  intros HN HD HE Hn. rewrite fexp_eq in *.
  pose proof (Z.div_pos N D HN HD) as Hq.
  assert (0 < N / D) as Hqpos.
  { destruct (Z.eq_dec (N / D) 0) as [E0|]; [|lia].
    rewrite E0 in *. simpl in *. lia. }
  pose proof (Zdigits2_bounds _ Hqpos) as [Hlo _].
  set (d := Zdigits2 (N / D)) in *.
  replace (Z.max (d + E - 53) (-1074)) with (d + E - 53) by lia.
  pose proof (rne_bounds N (D * 2 ^ (d + E - 53 - E))) as [Hlb _].
  rewrite <- Z.div_div in Hlb by (try apply pow2_pos; lia).
  assert (2 ^ 52 ≤ N / D / 2 ^ (d + E - 53 - E)); [|lia].
  apply Z.div_le_lower_bound; [apply pow2_pos; lia|].
  rewrite <- pow2_add by lia.
  replace (d + E - 53 - E + 52) with (d - 1) by lia. exact Hlo.
Qed.

Lemma round_mant_mono (N1 D1 E1 N2 D2 E2 : Z) :
  0 ≤ N1 → 0 ≤ N2 → 0 < D1 → 0 < D2 →
  E1 ≤ fexp prec emax (Zdigits2 (N1 / D1) + E1) →
  E2 ≤ fexp prec emax (Zdigits2 (N2 / D2) + E2) →
  N1 * D2 * 2 ^ (E1 - Z.min E1 E2) ≤ N2 * D1 * 2 ^ (E2 - Z.min E1 E2) →
  SFleb (finish false (round_mant N1 D1 E1)) (finish false (round_mant N2 D2 E2))
  = true.
Proof.
  intros HN1 HN2 HD1 HD2 HE1 HE2 Hle.
  pose proof (fexp_order _ _ _ _ _ _ HN1 HN2 HD1 HD2 HE1 Hle) as HF.
  pose proof (rne_le_2p53 N1 D1 E1 HN1 HD1 HE1) as Hm1.
  pose proof (rne_le_2p53 N2 D2 E2 HN2 HD2 HE2) as Hm2.
  rewrite !round_mant_eq by assumption. cbv zeta.
  set (F1 := fexp prec emax (Zdigits2 (N1 / D1) + E1)) in *.
  set (F2 := fexp prec emax (Zdigits2 (N2 / D2) + E2)) in *.
  assert (-1074 ≤ F1) as HF1 by (subst F1; rewrite fexp_eq; lia).
  assert (0 < D1 * 2 ^ (F1 - E1)) as HK1
    by (apply Z.mul_pos_pos; [lia|apply pow2_pos; lia]).
  assert (0 < D2 * 2 ^ (F2 - E2)) as HK2
    by (apply Z.mul_pos_pos; [lia|apply pow2_pos; lia]).
  pose proof (rne_nonneg N1 _ HN1 HK1) as Hp1.
  pose proof (rne_nonneg N2 _ HN2 HK2) as Hp2.
  remember (Z.min E1 E2) as Em eqn:HEm.
  destruct (Z.eq_dec F1 F2) as [EF|NF].
  - (* the same exponent: the mantissas are ordered *)
    assert (rne N1 (D1 * 2 ^ (F1 - E1)) ≤ rne N2 (D2 * 2 ^ (F2 - E2))) as Hmm.
    { apply rne_mono; try assumption.
      rewrite <- EF.
      replace (F1 - E2) with (E1 - Em + (F1 - E1 - E2 + Em)) by lia.
      replace (F1 - E1) with (E2 - Em + (F1 - E1 - E2 + Em)) at 2 by lia.
      rewrite (pow2_add (E1 - Em)), (pow2_add (E2 - Em)) by lia.
      pose proof (pow2_pos (F1 - E1 - E2 + Em) ltac:(lia)). nia. }
    set (a := rne N1 _) in *. set (b := rne N2 _) in *.
    destruct (Z.eqb_spec a (2 ^ 53)), (Z.eqb_spec b (2 ^ 53));
      apply finish_le; try lia.
  - (* a smaller exponent: the larger value is normal *)
    assert (F1 < F2) as HFlt by lia.
    pose proof (rne_normal N2 D2 E2 HN2 HD2 HE2 ltac:(fold F2; lia)) as Hn2.
    fold F2 in Hn2.
    set (a := rne N1 _) in *. set (b := rne N2 _) in *.
    destruct (Z.eqb_spec a (2 ^ 53)), (Z.eqb_spec b (2 ^ 53));
      apply finish_le; try lia.
Qed.

End Monotone.

(** ** Products and quotients of finite positive values *)

Section FiniteOps.
Local Open Scope Z_scope.

Lemma SFleb_finite (m1 : positive) (e1 : Z) (m2 : positive) (e2 : Z) :
  SFleb (S754_finite false m1 e1) (S754_finite false m2 e2) = true
  ↔ e1 < e2 ∨ (e1 = e2 ∧ Z.pos m1 ≤ Z.pos m2).
Proof.
  unfold SFleb, SFcompare.
  change (Pos.compare_cont Eq m1 m2) with (m1 ?= m2)%positive.
  destruct (Z.compare_spec e1 e2); [destruct (Pos.compare_spec m1 m2)|..];
    split; intros Hyp; try done; try lia.
Qed.

(** Canonical mantissas ordered by exponent and mantissa are ordered by
    value. *)
Lemma canonical_order (m1 : positive) (e1 : Z) (m2 : positive) (e2 X : Z) :
  valid_binary (S754_finite false m1 e1) = true →
  valid_binary (S754_finite false m2 e2) = true →
  e1 < e2 ∨ (e1 = e2 ∧ Z.pos m1 ≤ Z.pos m2) →
  X ≤ e1 → X ≤ e2 →
  Z.pos m1 * 2 ^ (e1 - X) ≤ Z.pos m2 * 2 ^ (e2 - X).
Proof.
  intros (He1 & _ & _ & Hu1 & _)%valid_finite (He2 & _ & _ & _ & Hn2)%valid_finite
    Hord HX1 HX2.
  pose proof (pow2_pos (e1 - X) ltac:(lia)) as Hp.
  destruct Hord as [Hlt|[-> Hle]]; [|nia].
  replace (e2 - X) with (e2 - e1 + (e1 - X)) by lia.
  rewrite pow2_add by lia.
  assert (2 ^ 1 ≤ 2 ^ (e2 - e1)) as H2 by (apply pow2_le; lia).
  change (2 ^ 1) with 2 in H2. specialize (Hn2 ltac:(lia)).
  change (2 ^ 53) with (2 * 2 ^ 52) in Hu1.
  set (c := 2 ^ 52) in *. set (k := 2 ^ (e2 - e1)) in *.
  assert (Z.pos m1 ≤ Z.pos m2 * k) as Hmk by nia.
  rewrite Z.mul_assoc. apply Z.mul_le_mono_nonneg_r; lia.
Qed.

Lemma Zdigits2_mul_lower (a b : positive) :
  Z.pos (digits2_pos a) + Z.pos (digits2_pos b) - 1 ≤ Zdigits2 (Z.pos (a * b)).
Proof.
  pose proof (digits2_pos_bounds a) as [Ha _].
  pose proof (digits2_pos_bounds b) as [Hb _].
  pose proof (Zdigits2_lt (Z.pos (a * b)) ltac:(lia)) as Hlt.
  pose proof (Zdigits2_nonneg (Z.pos (a * b))) as Hd.
  set (da := Z.pos (digits2_pos a)) in *. set (db := Z.pos (digits2_pos b)) in *.
  assert (0 < da) by (subst da; lia). assert (0 < db) by (subst db; lia).
  assert (2 ^ (da - 1 + (db - 1)) < 2 ^ Zdigits2 (Z.pos (a * b))) as Hp.
  { rewrite pow2_add by lia.
    pose proof (pow2_pos (da - 1) ltac:(lia)). pose proof (pow2_pos (db - 1) ltac:(lia)).
    apply Z.le_lt_trans with (Z.pos (a * b)); [|lia].
    rewrite Pos2Z.inj_mul. apply Z.mul_le_mono_nonneg; lia. }
  apply pow2_lt_inv in Hp; lia.
Qed.

Lemma mul_exponent_ok (m : positive) (e : Z) (mc : positive) (ec : Z) :
  valid_binary (S754_finite false m e) = true →
  valid_binary (S754_finite false mc ec) = true →
  e + ec ≤ fexp prec emax (Zdigits2 (Z.pos (m * mc) / 1) + (e + ec)).
Proof.
  intros (He & Hd & Hn & _)%valid_finite (Hec & Hdc & Hnc & _)%valid_finite.
  rewrite Z.div_1_r, fexp_eq.
  pose proof (Zdigits2_mul_lower m mc).
  assert (0 < Z.pos (digits2_pos m)) by lia.
  assert (0 < Z.pos (digits2_pos mc)) by lia.
  destruct (Z.eq_dec e (-1074)), (Z.eq_dec ec (-1074)); lia.
Qed.

Lemma SFmul_finite_mono (m1 : positive) (e1 : Z) (m2 : positive) (e2 : Z)
    (mc : positive) (ec : Z) :
  valid_binary (S754_finite false m1 e1) = true →
  valid_binary (S754_finite false m2 e2) = true →
  valid_binary (S754_finite false mc ec) = true →
  SFleb (S754_finite false m1 e1) (S754_finite false m2 e2) = true →
  SFleb (SFmul prec emax (S754_finite false m1 e1) (S754_finite false mc ec))
        (SFmul prec emax (S754_finite false m2 e2) (S754_finite false mc ec))
  = true.
Proof.
  intros V1 V2 Vc Hle%SFleb_finite. simpl.
  rewrite !binary_round_aux_exact by lia.
  apply round_mant_mono; try lia; try (by apply mul_exponent_ok).
  rewrite !Z.mul_1_r, !Pos2Z.inj_mul.
  pose proof (canonical_order m1 e1 m2 e2 (Z.min e1 e2) V1 V2 Hle
                ltac:(lia) ltac:(lia)) as Ho.
  replace (e1 + ec - Z.min (e1 + ec) (e2 + ec)) with (e1 - Z.min e1 e2) by lia.
  replace (e2 + ec - Z.min (e1 + ec) (e2 + ec)) with (e2 - Z.min e1 e2) by lia.
  nia.
Qed.

(** The core of the division: a quotient with its location. *)
Lemma SFdiv_core_eq (m1 : positive) (e1 : Z) (m2 : positive) (e2 : Z) :
  let e' := Z.min (fexp prec emax (Z.pos (digits2_pos m1) + e1
                                   - (Z.pos (digits2_pos m2) + e2))) (e1 - e2) in
  let N := Z.pos m1 * 2 ^ (e1 - e2 - e') in
  SFdiv_core_binary prec emax (Z.pos m1) e1 (Z.pos m2) e2
  = (N / Z.pos m2, e', new_location (Z.pos m2) (N mod Z.pos m2)).
Proof.
  intros e' N. unfold SFdiv_core_binary. simpl Zdigits2. fold e'.
  assert (0 ≤ e1 - e2 - e') as Hs by (subst e'; lia).
  assert (match e1 - e2 - e' with
          | 0 => Z.pos m1
          | Z.pos _ => Z.shiftl (Z.pos m1) (e1 - e2 - e')
          | Z.neg _ => 0
          end = N) as ->.
  { subst N. destruct (e1 - e2 - e') as [|p|p] eqn:E; [simpl; lia| |lia].
    rewrite Z.shiftl_mul_pow2 by lia. reflexivity. }
  unfold Z.div, Z.modulo. destruct (Z.div_eucl N (Z.pos m2)). reflexivity.
Qed.

Lemma div_exponent_ok (m1 : positive) (e1 : Z) (m2 : positive) (e2 : Z) :
  let e' := Z.min (fexp prec emax (Z.pos (digits2_pos m1) + e1
                                   - (Z.pos (digits2_pos m2) + e2))) (e1 - e2) in
  let N := Z.pos m1 * 2 ^ (e1 - e2 - e') in
  e' ≤ fexp prec emax (Zdigits2 (N / Z.pos m2) + e').
Proof.
  intros e' N.
  pose proof (digits2_pos_bounds m1) as [Hlo1 _].
  pose proof (digits2_pos_bounds m2) as [_ Hhi2].
  set (d1 := Z.pos (digits2_pos m1)) in *. set (d2 := Z.pos (digits2_pos m2)) in *.
  assert (0 < d1) by (subst d1; lia). assert (0 < d2) by (subst d2; lia).
  assert (e' ≤ fexp prec emax (d1 + e1 - (d2 + e2))) as He' by (subst e'; lia).
  assert (0 ≤ e1 - e2 - e') as Hs by (subst e'; lia).
  set (s := e1 - e2 - e') in *.
  pose proof (pow2_pos s Hs) as Hps.
  assert (0 ≤ N) as HN by (subst N; lia).
  pose proof (Z.div_pos N (Z.pos m2) HN ltac:(lia)) as Hq.
  assert (2 ^ (d1 - 1 + s) ≤ N) as HloN.
  { subst N. rewrite pow2_add by lia. nia. }
  assert (d1 + s - d2 ≤ Zdigits2 (N / Z.pos m2) ∨ (N / Z.pos m2 = 0 ∧ d1 + s - d2 ≤ 0))
    as [Hdq|[Hq0 Hneg]].
  { destruct (Z.le_gt_cases (d1 + s - d2) 0) as [Hk|Hk].
    - pose proof (Zdigits2_nonneg (N / Z.pos m2)). lia.
    - left.
      assert (2 ^ (d1 - 1 + s - d2) ≤ N / Z.pos m2) as Hlow.
      { apply Z.div_le_lower_bound; [lia|].
        apply Z.le_trans with (2 ^ (d1 - 1 + s)); [|done].
        replace (d1 - 1 + s) with (d2 + (d1 - 1 + s - d2)) at 2 by lia.
        rewrite pow2_add by lia.
        pose proof (pow2_pos (d1 - 1 + s - d2) ltac:(lia)). nia. }
      pose proof (Zdigits2_lt _ Hq) as Hlt.
      pose proof (Zdigits2_nonneg (N / Z.pos m2)).
      assert (2 ^ (d1 - 1 + s - d2) < 2 ^ Zdigits2 (N / Z.pos m2)) as Hp by lia.
      apply pow2_lt_inv in Hp; lia. }
  - apply Z.le_trans with (fexp prec emax (d1 + e1 - (d2 + e2))); [done|].
    apply fexp_mono. lia.
  - rewrite Hq0. simpl Zdigits2. rewrite fexp_eq in *. lia.
Qed.

Lemma SFdiv_finite_mono (m1 : positive) (e1 : Z) (m2 : positive) (e2 : Z)
    (md : positive) (ed : Z) :
  valid_binary (S754_finite false m1 e1) = true →
  valid_binary (S754_finite false m2 e2) = true →
  SFleb (S754_finite false m1 e1) (S754_finite false m2 e2) = true →
  SFleb (SFdiv prec emax (S754_finite false m1 e1) (S754_finite false md ed))
        (SFdiv prec emax (S754_finite false m2 e2) (S754_finite false md ed))
  = true.
Proof.
  intros V1 V2 Hle%SFleb_finite. simpl.
  rewrite !SFdiv_core_eq. cbv zeta.
  pose proof (div_exponent_ok m1 e1 md ed) as Hx1.
  pose proof (div_exponent_ok m2 e2 md ed) as Hx2. cbv zeta in Hx1, Hx2.
  set (x1 := Z.min _ (e1 - ed)) in *. set (x2 := Z.min _ (e2 - ed)) in *.
  assert (0 ≤ e1 - ed - x1) as Hs1 by (subst x1; lia).
  assert (0 ≤ e2 - ed - x2) as Hs2 by (subst x2; lia).
  pose proof (pow2_pos _ Hs1). pose proof (pow2_pos _ Hs2).
  rewrite !binary_round_aux_char by lia.
  apply round_mant_mono; try lia.
  remember (Z.min x1 x2) as Em eqn:HEm.
  pose proof (canonical_order m1 e1 m2 e2 (ed + Em) V1 V2 Hle
                ltac:(lia) ltac:(lia)) as Ho.
  replace (e1 - (ed + Em)) with (e1 - ed - x1 + (x1 - Em)) in Ho by lia.
  replace (e2 - (ed + Em)) with (e2 - ed - x2 + (x2 - Em)) in Ho by lia.
  rewrite (pow2_add (e1 - ed - x1)), (pow2_add (e2 - ed - x2)) in Ho by lia.
  nia.
Qed.

End FiniteOps.

(** ** Monotone operations, special values included *)

Section MonotoneOps.
Local Open Scope Z_scope.

Lemma mono_rel_zero_l (s : bool) (z : spec_float) :
  SFnn z = true → mono_rel (S754_zero s) z.
Proof.
  intros Hz. destruct z as [s'|[]| |[] m e]; try discriminate;
    unfold mono_rel; auto.
Qed.

Lemma mono_rel_inf_r (z : spec_float) :
  SFnn z = true → mono_rel z (S754_infinity false).
Proof.
  intros Hz. destruct z as [s'|[]| |[] m e]; try discriminate;
    unfold mono_rel; auto.
Qed.

Lemma mono_rel_refl (z : spec_float) : SFnn z = true → mono_rel z z.
Proof.
  intros Hz. destruct z as [s'|[]| |[] m e]; try discriminate;
    unfold mono_rel; auto.
  right; right. repeat split. apply SFleb_finite. lia.
Qed.

Lemma round_sign_nn (m e : Z) (l : location) :
  0 ≤ m → SFnn (binary_round_aux prec emax false m e l) = true.
Proof.
  intros Hm. pose proof (binary_round_aux_sign false m e l Hm) as H.
  destruct (binary_round_aux _ _ _ _ _ _) as [|[]| |[] ? ?]; done.
Qed.

Lemma SFmul_mono (x y c : spec_float) :
  valid_binary x = true → valid_binary y = true → valid_binary c = true →
  mono_rel x y → SFnn c = true →
  mono_rel (SFmul prec emax x c) (SFmul prec emax y c).
Proof.
  intros Vx Vy Vc [->|[->|(Hx & Hy & Hle)]] Hc.
  - left. reflexivity.
  - right; left. by destruct x.
  - destruct c as [sc|[]| |[] mc ec]; try discriminate.
    + destruct x as [sx|[]| |[] m1 e1], y as [sy|[]| |[] m2 e2];
        try discriminate; unfold mono_rel; simpl; auto.
    + destruct x as [sx|[]| |[] m1 e1], y as [sy|[]| |[] m2 e2];
        try discriminate; unfold mono_rel; simpl; auto.
    + right; left. by destruct y.
    + destruct x as [sx|[]| |[] m1 e1], y as [sy|[]| |[] m2 e2];
        try discriminate.
      * unfold mono_rel; simpl; auto.
      * apply mono_rel_zero_l. reflexivity.
      * apply mono_rel_zero_l. apply round_sign_nn. lia.
      * unfold mono_rel; simpl; auto.
      * apply mono_rel_inf_r. apply round_sign_nn. lia.
      * right; right. split; [|split].
        -- apply round_sign_nn. lia.
        -- apply round_sign_nn. lia.
        -- by apply SFmul_finite_mono.
Qed.

Lemma SFdiv_core_sign_nn (m1 m2 : positive) (e1 e2 : Z) :
  SFnn (SFdiv prec emax (S754_finite false m1 e1) (S754_finite false m2 e2)) = true.
Proof. by apply SFdiv_nn. Qed.

Lemma SFdiv_mono (x y d : spec_float) :
  valid_binary x = true → valid_binary y = true →
  mono_rel x y → SFsp d = true →
  mono_rel (SFdiv prec emax x d) (SFdiv prec emax y d).
Proof.
  intros Vx Vy [->|[->|(Hx & Hy & Hle)]] Hd.
  - left. reflexivity.
  - right; left. by destruct x.
  - destruct d as [[]|[]| |[] md ed]; try discriminate.
    + destruct x as [sx|[]| |[] m1 e1], y as [sy|[]| |[] m2 e2];
        try discriminate; unfold mono_rel; simpl; auto.
    + destruct x as [sx|[]| |[] m1 e1], y as [sy|[]| |[] m2 e2];
        try discriminate; unfold mono_rel; simpl; auto.
    + right; left. by destruct y.
    + destruct x as [sx|[]| |[] m1 e1], y as [sy|[]| |[] m2 e2];
        try discriminate.
      * unfold mono_rel; simpl; auto.
      * apply mono_rel_zero_l. reflexivity.
      * apply mono_rel_zero_l. apply SFdiv_core_sign_nn.
      * unfold mono_rel; simpl; auto.
      * apply mono_rel_inf_r. apply SFdiv_core_sign_nn.
      * right; right. split; [|split].
        -- apply SFdiv_core_sign_nn.
        -- apply SFdiv_core_sign_nn.
        -- by apply SFdiv_finite_mono.
Qed.

End MonotoneOps.

(** ** [Math.round] is monotone *)

Section RoundMonotone.
Local Open Scope Z_scope.

Lemma div_cross_mono (a b c d : Z) :
  0 < b → 0 < d → a * d ≤ c * b → a / b ≤ c / d.
Proof.
  intros Hb Hd Hle. apply Z.div_le_lower_bound; [lia|].
  pose proof (Z.mul_div_le a b Hb).
  apply (Zmult_le_reg_r _ _ b); [lia|]. nia.
Qed.

Lemma Zdigits2_shift (z k : Z) :
  0 < z → 0 ≤ k → Zdigits2 (z * 2 ^ k) = Zdigits2 z + k.
Proof.
  intros Hz Hk. pose proof (Zdigits2_bounds z Hz) as [Hlo Hhi].
  pose proof (Zdigits2_pos z Hz) as Hd. pose proof (pow2_pos k Hk) as Hp.
  apply Zdigits2_unique; [|nia].
  replace (Zdigits2 z + k - 1) with (Zdigits2 z - 1 + k) by lia.
  rewrite !pow2_add by lia. split; nia.
Qed.

(** A canonical finite value is the rounding of itself. *)
Lemma finite_as_round (m : positive) (e : Z) :
  valid_binary (S754_finite false m e) = true →
  e ≤ fexp prec emax (Zdigits2 (Z.pos m / 1) + e)
  ∧ S754_finite false m e = finish false (round_mant (Z.pos m) 1 e).
Proof.
  intros V. pose proof V as (He & Hd & Hn & Hu & _)%valid_finite.
  assert (fexp prec emax (Zdigits2 (Z.pos m / 1) + e) = e) as HF.
  { rewrite Z.div_1_r, fexp_eq. simpl Zdigits2.
    destruct (Z.eq_dec e (-1074)); lia. }
  split; [lia|].
  rewrite round_mant_eq by lia. cbv zeta. rewrite HF, Z.sub_diag.
  change (1 * 2 ^ 0) with 1.
  assert (rne (Z.pos m) 1 = Z.pos m) as ->.
  { unfold rne. rewrite Z.div_1_r, Z.mod_1_r. reflexivity. }
  destruct (Z.eqb_spec (Z.pos m) (2 ^ 53)); [lia|].
  unfold finish. simpl. destruct (Z.leb_spec e (emax - prec)); [done|].
  change (emax - prec) with 971 in *. lia.
Qed.

(** Rounding an integer mantissa [q] at exponent [e], as [binary_round]
    does, is the rounding of the same value at an exponent no larger. *)
Lemma binary_round_as_round (q : positive) (e : Z) :
  ∃ N E, E ≤ e ∧ N = Z.pos q * 2 ^ (e - E) ∧ 0 ≤ N
         ∧ E ≤ fexp prec emax (Zdigits2 (N / 1) + E)
         ∧ binary_round prec emax false q e = finish false (round_mant N 1 E).
Proof.
  unfold binary_round.
  set (e' := fexp prec emax (Z.pos (digits2_pos q) + e)).
  destruct (Z.le_gt_cases e e') as [Hge|Hlt].
  - exists (Z.pos q), e.
    assert (shl_align q e e' = (q, e)) as ->.
    { unfold shl_align. destruct (e' - e) eqn:E; try reflexivity. lia. }
    rewrite binary_round_aux_exact by lia.
    split; [lia|]. split; [rewrite Z.sub_diag; lia|]. split; [lia|].
    split; [|reflexivity]. rewrite Z.div_1_r. exact Hge.
  - pose proof (shl_align_value q e e' ltac:(lia)) as Hv.
    assert ((shl_align q e e').2 = e') as He2.
    { unfold shl_align. destruct (e' - e) eqn:E; try lia. reflexivity. }
    destruct (shl_align q e e') as [mz ez]. simpl in Hv, He2. subst ez.
    exists (Z.pos mz), e'.
    rewrite binary_round_aux_exact by lia.
    split; [lia|]. split; [exact Hv|]. split; [lia|]. split; [|reflexivity].
    rewrite Z.div_1_r, Hv.
    rewrite Zdigits2_shift by lia. simpl Zdigits2.
    replace (Z.pos (digits2_pos q) + (e - e') + e') with (Z.pos (digits2_pos q) + e) by lia.
    fold e'. lia.
Qed.

Lemma integer_nn (q : Z) :
  0 ≤ q → SFnn (binary_normalize prec emax q 0 false) = true.
Proof.
  intros Hq. pose proof (binary_normalize_nn q 0 false Hq) as H.
  destruct (q =? 0); destruct (binary_normalize _ _ _ _ _) as [[]|[]| |[] ? ?];
    done.
Qed.

Lemma integer_mono (q1 q2 : Z) :
  0 ≤ q1 ≤ q2 →
  mono_rel (binary_normalize prec emax q1 0 false)
           (binary_normalize prec emax q2 0 false).
Proof.
  intros [H1 H12].
  destruct q1 as [|p1|p1]; [|destruct q2 as [|p2|p2]|]; try lia.
  - apply mono_rel_zero_l, integer_nn. lia.
  - simpl binary_normalize.
    destruct (binary_round_as_round p1 0) as (N1 & E1 & HE1 & HN1 & HN1' & HF1 & ->).
    destruct (binary_round_as_round p2 0) as (N2 & E2 & HE2 & HN2 & HN2' & HF2 & ->).
    right; right.
    assert (SFleb (finish false (round_mant N1 1 E1))
                  (finish false (round_mant N2 1 E2)) = true) as Hle.
    { apply round_mant_mono; try lia.
      remember (Z.min E1 E2) as Em eqn:HEm. rewrite !Z.mul_1_r. subst N1 N2.
      rewrite <- !Z.mul_assoc, <- !pow2_add by lia.
      replace (0 - E1 + (E1 - Em)) with (- Em) by lia.
      replace (0 - E2 + (E2 - Em)) with (- Em) by lia.
      pose proof (pow2_pos (- Em) ltac:(lia)). nia. }
    split; [|split]; [| |exact Hle].
    + rewrite <- binary_round_aux_exact by lia. apply round_sign_nn; lia.
    + rewrite <- binary_round_aux_exact by lia. apply round_sign_nn; lia.
Qed.

(** The integer [Math.round] computes for a positive value below 2^52. *)
Lemma round_quotient_bounds (m : positive) (e : Z) :
  e < 0 → Z.pos m < 2 ^ 53 →
  0 ≤ (2 * Z.pos m + 2 ^ (- e)) / (2 * 2 ^ (- e)) ≤ 2 ^ 52.
Proof.
  intros He Hm. pose proof (pow2_pos (- e) ltac:(lia)) as Hp.
  assert (2 ^ 1 ≤ 2 ^ (- e)) as H2 by (apply pow2_le; lia).
  change (2 ^ 1) with 2 in H2. change (2 ^ 53) with (2 * 2 ^ 52) in Hm.
  set (c := 2 ^ 52) in *. set (d := 2 ^ (- e)) in *.
  split; [apply Z.div_pos; lia|].
  assert ((2 * Z.pos m + d) / (2 * d) < c + 1); [|lia].
  apply Z.div_lt_upper_bound; [lia|]. nia.
Qed.

Lemma Math_round_fraction (x : float) (m : positive) (e : Z) :
  Prim2SF x = S754_finite false m e → e < 0 →
  Prim2SF (JS.Math_round x)
  = binary_normalize prec emax
      ((2 * Z.pos m + 2 ^ (- e)) / (2 * 2 ^ (- e))) 0 false.
Proof.
  intros Hx He. unfold JS.Math_round. rewrite Hx.
  destruct (Z.leb_spec 0 e); [lia|].
  pose proof (Prim2SF_finite x _ _ _ Hx) as (_ & _ & _ & Hu & _).
  pose proof (round_quotient_bounds m e He Hu) as [Hq0 Hq1].
  rewrite of_uint63_spec, of_Z_spec, Z.abs_eq by lia.
  rewrite Z.mod_small; [reflexivity|].
  split; [lia|]. apply Z.le_lt_trans with (2 ^ 52); [lia|]. reflexivity.
Qed.

Lemma Math_round_integral (x : float) :
  match Prim2SF x with
  | S754_finite _ _ e => 0 ≤ e
  | _ => True
  end → JS.Math_round x = x.
Proof.
  unfold JS.Math_round. destruct (Prim2SF x) as [| | |s m e]; try done.
  intros He. destruct (Z.leb_spec 0 e); [done|lia].
Qed.

Lemma Math_round_mono (x y : float) :
  mono_rel (Prim2SF x) (Prim2SF y) →
  mono_rel (Prim2SF (JS.Math_round x)) (Prim2SF (JS.Math_round y)).
Proof.
  intros [Hx|[Hy|(Hx & Hy & Hle)]].
  - left. rewrite Math_round_integral; by rewrite Hx.
  - right; left. rewrite Math_round_integral; by rewrite Hy.
  - pose proof (Prim2SF_valid x) as Vx. pose proof (Prim2SF_valid y) as Vy.
    destruct (Prim2SF x) as [sx|[]| |[] m1 e1] eqn:Ex; try discriminate.
    + rewrite (Math_round_integral x) by (by rewrite Ex). rewrite Ex.
      apply mono_rel_zero_l, Math_round_nn. exact Hy.
    + rewrite (Math_round_integral x) by (by rewrite Ex). rewrite Ex.
      destruct (Prim2SF y) as [sy|[]| |[] m2 e2] eqn:Ey; try discriminate.
      rewrite (Math_round_integral y) by (by rewrite Ey). rewrite Ey.
      by apply mono_rel_refl.
    + destruct (Prim2SF y) as [sy|[]| |[] m2 e2] eqn:Ey; try discriminate.
      * rewrite (Math_round_integral y) by (by rewrite Ey). rewrite Ey.
        apply mono_rel_inf_r, Math_round_nn. by rewrite Ex.
      * apply SFleb_finite in Hle.
        pose proof Vx as (He1 & _ & _ & Hu1 & Hn1)%valid_finite.
        pose proof Vy as (He2 & _ & _ & Hu2 & Hn2)%valid_finite.
        destruct (Z.leb_spec 0 e1) as [Hp1|Hp1].
        { (* both are integral *)
          rewrite (Math_round_integral x), (Math_round_integral y)
            by (rewrite ?Ex, ?Ey; lia).
          rewrite Ex, Ey. right; right. repeat split. apply SFleb_finite. lia. }
        rewrite (Math_round_fraction x m1 e1 Ex Hp1).
        pose proof (round_quotient_bounds m1 e1 Hp1 Hu1) as [Hq0 Hq1].
        destruct (Z.leb_spec 0 e2) as [Hp2|Hp2].
        { (* a fraction below an integral value *)
          rewrite (Math_round_integral y) by (rewrite Ey; lia). rewrite Ey.
          set (q := (2 * Z.pos m1 + 2 ^ (- e1)) / (2 * 2 ^ (- e1))) in *.
          destruct q as [|p|p] eqn:Eq; [|clear Eq|lia].
          - apply mono_rel_zero_l. reflexivity.
          - simpl binary_normalize.
            destruct (binary_round_as_round p 0) as (N & E & HE & HN & HN' & HF & ->).
            destruct (finite_as_round m2 e2 Vy) as [HF2 Hfin].
            right; right. split; [|split]; [|reflexivity|].
            + rewrite <- binary_round_aux_exact by lia. apply round_sign_nn; lia.
            + rewrite Hfin. apply round_mant_mono; try lia.
              replace (Z.min E e2) with E by lia.
              rewrite Z.sub_diag, !Z.mul_1_r. subst N.
              replace (e2 - E) with (e2 + (0 - E)) by lia.
              rewrite pow2_add by lia.
              pose proof (pow2_pos (0 - E) ltac:(lia)).
              pose proof (pow2_pos e2 Hp2). specialize (Hn2 ltac:(lia)).
              set (c := 2 ^ 52) in *.
              assert (Z.pos p ≤ Z.pos m2 * 2 ^ e2) by nia.
              rewrite Z.mul_assoc. apply Z.mul_le_mono_nonneg_r; lia. }
        (* two fractions *)
        rewrite (Math_round_fraction y m2 e2 Ey Hp2).
        apply integer_mono. split; [done|].
        pose proof (canonical_order m1 e1 m2 e2 (e1 + e2) Vx Vy Hle
                      ltac:(lia) ltac:(lia)) as Ho.
        replace (e1 - (e1 + e2)) with (- e2) in Ho by lia.
        replace (e2 - (e1 + e2)) with (- e1) in Ho by lia.
        pose proof (pow2_pos (- e1) ltac:(lia)).
        pose proof (pow2_pos (- e2) ltac:(lia)).
        apply div_cross_mono; lia.
Qed.

End RoundMonotone.

(** ** Adding a value that is not negative *)

Section AddMonotone.
Local Open Scope Z_scope.

Lemma SFadd_finite_ge (m1 : positive) (e1 : Z) (m2 : positive) (e2 : Z) :
  valid_binary (S754_finite false m1 e1) = true →
  SFleb (S754_finite false m1 e1)
        (SFadd prec emax (S754_finite false m1 e1) (S754_finite false m2 e2))
  = true.
Proof.
  intros V1. unfold SFadd. cbv zeta. unfold cond_Zopp.
  set (ez := Z.min e1 e2).
  pose proof (shl_align_value m1 e1 ez ltac:(lia)) as Ha.
  set (a := (shl_align m1 e1 ez).1) in *.
  set (b := (shl_align m2 e2 ez).1) in *.
  change (Z.pos a + Z.pos b) with (Z.pos (a + b)). simpl binary_normalize.
  destruct (binary_round_as_round (a + b) ez) as (N & E & HE & HN & HN' & HF & ->).
  destruct (finite_as_round m1 e1 V1) as [HF1 Hfin]. rewrite Hfin.
  apply round_mant_mono; try lia.
  replace (Z.min e1 E) with E by lia.
  rewrite Z.sub_diag, !Z.mul_1_r. subst N.
  replace (e1 - E) with (e1 - ez + (ez - E)) by lia.
  rewrite pow2_add, Z.mul_assoc, <- Ha by lia.
  pose proof (pow2_pos (ez - E) ltac:(lia)).
  apply Z.mul_le_mono_nonneg_r; lia.
Qed.

(** A strictly positive value does not decrease when a value that is not
    negative is added to it. *)
Lemma SFadd_ge (x y : spec_float) :
  valid_binary x = true → SFpos x = true → SFnn y = true →
  mono_rel x (SFadd prec emax x y).
Proof.
  intros Vx Hx Hy.
  destruct x as [sx|[]| |[] m1 e1], y as [sy|[]| |[] m2 e2]; try done;
    try (unfold mono_rel; simpl; auto; fail);
    try (by apply mono_rel_refl).
  right; right. split; [done|]. split; [by apply SFadd_nn|].
  by apply SFadd_finite_ge.
Qed.

End AddMonotone.

(** ** Monotonicity of the primitive operations *)

Section PrimMonotone.
Local Open Scope float_scope.

Lemma fmono_mul (x y c : float) :
  fmono x y → SFnn (Prim2SF c) = true → fmono (x * c) (y * c).
Proof.
  unfold fmono. rewrite !FloatAxioms.mul_spec.
  apply SFmul_mono; apply Prim2SF_valid.
Qed.

Lemma fmono_div (x y d : float) :
  fmono x y → SFsp (Prim2SF d) = true → fmono (x / d) (y / d).
Proof.
  unfold fmono. rewrite !FloatAxioms.div_spec.
  apply SFdiv_mono; apply Prim2SF_valid.
Qed.

Lemma fmono_add (x y : float) :
  SFpos (Prim2SF x) = true → SFnn (Prim2SF y) = true → fmono x (x + y).
Proof.
  intros Hx Hy. unfold fmono. rewrite FloatAxioms.add_spec.
  apply SFadd_ge; [apply Prim2SF_valid|done..].
Qed.

Lemma fmono_round2 (x y : float) :
  fmono x y → fmono (Spec.round2 x) (Spec.round2 y).
Proof.
  intros H. unfold Spec.round2.
  apply fmono_div; [|by rewrite Prim2SF_100].
  apply Math_round_mono, fmono_mul; [done|by rewrite Prim2SF_100].
Qed.

Lemma SFleb_not_gt (x y : spec_float) :
  SFnn x = true → SFnn y = true → SFleb x y = true → SFltb y x = false.
Proof.
  destruct x as [sx|[]| |[] m1 e1], y as [sy|[]| |[] m2 e2]; try done.
  intros _ _ [Hlt|[-> Hle]]%SFleb_finite; unfold SFltb, SFcompare.
  - apply Z.compare_gt_iff in Hlt. by rewrite Hlt.
  - rewrite Z.compare_refl. change (Pos.compare_cont Eq m2 m1) with (m2 ?= m1)%positive.
    destruct (Pos.compare_spec m2 m1); try done. lia.
Qed.

Lemma fmono_not_lt (x y : float) : fmono x y → (y <? x) = false.
Proof.
  rewrite FloatAxioms.ltb_spec. intros [Hx|[Hy|(Hx & Hy & Hle)]].
  - rewrite Hx. unfold SFltb. by destruct (Prim2SF y).
  - rewrite Hy. reflexivity.
  - by apply SFleb_not_gt.
Qed.

Lemma fmono_leb (x y : float) :
  fmono x y → is_nan x = true ∨ is_nan y = true ∨ (x <=? y) = true.
Proof.
  rewrite FloatAxioms.leb_spec, !is_nan_spec. unfold fmono, mono_rel. tauto.
Qed.

Lemma ltb_fmono (x y : float) :
  SFnn (Prim2SF x) = true → (x <? y) = true → fmono x y.
Proof.
  rewrite FloatAxioms.ltb_spec. unfold fmono, mono_rel.
  intros Hx Hlt. right; right.
  destruct (Prim2SF x) as [sx|[]| |[] m1 e1], (Prim2SF y) as [sy|[]| |[] m2 e2];
    try done.
  repeat split. unfold SFltb, SFleb in *.
  destruct (SFcompare _ _) as [[]|]; done.
Qed.

Lemma valid_principal_pos (P : float) :
  valid_principal P = true → SFpos (Prim2SF P) = true.
Proof.
  unfold valid_principal, JS.isNaN.
  intros [Hn Hp]%andb_true_iff.
  apply leb_zero_pos; by apply negb_true_iff.
Qed.

Lemma valid_rate_nn (rate : float) :
  valid_rate rate = true → SFnn (Prim2SF rate) = true ∧ Prim2SF rate ≠ S754_nan.
Proof.
  unfold valid_rate, JS.isNaN.
  intros [Hn Hp]%andb_true_iff. apply negb_true_iff in Hn, Hp.
  split; [by apply ltb_zero_nn|by apply is_nan_false].
Qed.

Lemma valid_term_pos (years : float) :
  valid_term years = true →
  ∃ m e, Prim2SF years = S754_finite false m e
         ∧ (0 ≤ e ∨ Z.pos m mod 2 ^ (- e) = 0)%Z.
Proof.
  unfold valid_term, JS.isNaN, JS.Number_isInteger.
  intros [[Hn Hp]%andb_true_iff Hi]%andb_true_iff.
  apply negb_true_iff in Hn, Hp.
  pose proof (leb_zero_pos _ Hn Hp) as Hpos.
  destruct (Prim2SF years) as [sx|[]| |[] m e]; try done.
  exists m, e. split; [done|].
  destruct (Z.leb_spec 0 e); [by left|right]. by apply Z.eqb_eq.
Qed.

(** A positive integer is at least one. *)
Lemma valid_term_ge_1 (years : float) :
  valid_term years = true → fmono 1 years.
Proof.
  intros Hv. destruct (valid_term_pos _ Hv) as (m & e & E & Hint).
  pose proof (Prim2SF_finite _ _ _ _ E) as (He & _ & _ & Hu & Hn).
  unfold fmono. rewrite E, Prim2SF_1. right; right. repeat split.
  apply SFleb_finite.
  destruct (Z.lt_trichotomy (-52) e) as [Hlt|[<-|Hgt]]; [by left|right|exfalso].
  - split; [done|]. apply Hn. lia.
  - destruct Hint as [|Hmod]; [lia|].
    apply Z.mod_divide in Hmod; [|pose proof (pow2_pos (- e) ltac:(lia)); lia].
    apply Z.divide_pos_le in Hmod; [|lia].
    assert (2 ^ 53 ≤ 2 ^ (- e))%Z by (apply pow2_le; lia). lia.
Qed.

(** A term in years gives a number of payments that is at least twelve, so
    strictly positive. *)
Lemma payments_pos (years : float) :
  valid_term years = true → SFpos (Prim2SF (years * 12)) = true.
Proof.
  intros Hv. pose proof (valid_term_ge_1 _ Hv) as H1.
  apply (fmono_mul _ _ 12) in H1; [|by rewrite Prim2SF_12].
  change (1 * 12) with 12 in H1. unfold fmono in H1. rewrite Prim2SF_12 in H1.
  destruct H1 as [|[Hnan|(_ & Hnn & Hle)]]; [done| |].
  - exfalso. destruct (valid_term_pos _ Hv) as (m & e & E & _).
    rewrite FloatAxioms.mul_spec, E, Prim2SF_12 in Hnan.
    assert (sign_is false (SFmul prec emax (S754_finite false m e)
                             (S754_finite false 6755399441055744 (-49)))) as Hs
      by (apply binary_round_aux_sign; lia).
    unfold SF64mul in Hnan. rewrite Hnan in Hs. exact Hs.
  - by destruct (Prim2SF (years * 12)) as [sx|[]| |[] m e].
Qed.

End PrimMonotone.

(** ** Subtracting one from a value that is at least one *)

Section SubOne.
Local Open Scope float_scope.

Lemma SFltb_false_leb (m1 : positive) (e1 : Z) (m2 : positive) (e2 : Z) :
  SFltb (S754_finite false m1 e1) (S754_finite false m2 e2) = false →
  SFleb (S754_finite false m2 e2) (S754_finite false m1 e1) = true.
Proof.
  intros H. apply SFleb_finite. unfold SFltb, SFcompare in H.
  change (Pos.compare_cont Eq m1 m2) with (m1 ?= m2)%positive in H.
  destruct (Z.compare_spec e1 e2); [destruct (Pos.compare_spec m1 m2)|..];
    try done; lia.
Qed.

Lemma sub_one_sp (x : float) :
  (x <? 1) = false → SFsp (Prim2SF (x - 1)) = true.
Proof.
  rewrite FloatAxioms.ltb_spec, FloatAxioms.sub_spec, Prim2SF_1.
  pose proof (Prim2SF_valid x) as Vx. pose proof (Prim2SF_valid 1) as V1.
  rewrite Prim2SF_1 in V1.
  destruct (Prim2SF x) as [sx|[]| |[] m e]; try done.
  intros Hle%SFltb_false_leb. apply SFleb_finite in Hle.
  unfold SF64sub, SFsub. cbv zeta.
  set (ez := Z.min e (-52)).
  pose proof (canonical_order _ _ _ _ ez V1 Vx Hle ltac:(lia) ltac:(lia)) as Ho.
  rewrite <- !shl_align_value in Ho by lia.
  unfold cond_Zopp.
  set (a := Z.pos (shl_align m e ez).1) in *.
  set (b := Z.pos (shl_align 4503599627370496 (-52) ez).1) in *.
  pose proof (binary_normalize_nn (a - b) ez false ltac:(lia)) as Hs.
  apply SFsp_cases. right. by destruct (a - b =? 0)%Z.
Qed.

End SubOne.
(** ** Facts about the handlers *)

Section HandlerFacts.
Import JS.

Lemma Object_keys_empty (o : FormErrors) :
  Nat.eqb (length (Object_keys o)) 0 = bool_decide (o = ∅).
Proof.
  unfold Object_keys. rewrite length_fmap.
  case_bool_decide as H.
  - subst o. rewrite map_to_list_empty. reflexivity.
  - apply Nat.eqb_neq. intros Hz. apply H.
    apply map_to_list_empty_iff. by apply nil_length_inv.
Qed.

(** [validateForm] enqueues exactly one update, the error object, and
    returns whether that object is empty; each key depends on its own
    field only. *)
Lemma validateForm_shape (s : State) :
  ∃ e : FormErrors,
    validateForm s = (bool_decide (e = ∅), [setErrors e])
    ∧ e !! "loanAmount" = Spec.principal_rule (loanAmount s)
    ∧ e !! "interestRate" = Spec.rate_rule (interestRate s)
    ∧ e !! "loanTerm" = Spec.term_rule (loanTerm s)
    ∧ (∀ k, is_Some (e !! k) → k = "loanAmount" ∨ k = "interestRate" ∨ k = "loanTerm").
Proof.
  unfold validateForm.
  match goal with
  | |- context [setErrors ?m] => exists m
  end.
  split.
  { unfold mbind, mret, Logged_bind, Logged_ret, bind, ret, emit. simpl.
    rewrite Object_keys_empty. reflexivity. }
  unfold Spec.principal_rule, Spec.rate_rule, Spec.term_rule.
  repeat split.
  1-3: repeat case_match; simplify_map_eq; reflexivity.
  intros k [v Hk].
  destruct (decide (k = "loanAmount")) as [->|?]; [by left|].
  destruct (decide (k = "interestRate")) as [->|?]; [by right; left|].
  destruct (decide (k = "loanTerm")) as [->|?]; [by right; right|].
  exfalso. repeat case_match; simplify_map_eq.
Qed.

Lemma validateForm_newErrors (s : State) :
  validateForm s = (bool_decide (newErrors s = ∅), [setErrors (newErrors s)]).
Proof.
  destruct (validateForm_shape s) as (e & He & _).
  unfold newErrors. rewrite He. reflexivity.
Qed.

Lemma newErrors_lookup (s : State) :
  newErrors s !! "loanAmount" = Spec.principal_rule (loanAmount s)
  ∧ newErrors s !! "interestRate" = Spec.rate_rule (interestRate s)
  ∧ newErrors s !! "loanTerm" = Spec.term_rule (loanTerm s).
Proof.
  destruct (validateForm_shape s) as (e & He & H1 & H2 & H3 & _).
  unfold newErrors. rewrite He. auto.
Qed.

Lemma newErrors_keys (s : State) (k : string) :
  is_Some (newErrors s !! k) →
  k = "loanAmount" ∨ k = "interestRate" ∨ k = "loanTerm".
Proof.
  destruct (validateForm_shape s) as (e & He & _ & _ & _ & H).
  unfold newErrors. rewrite He. apply H.
Qed.

Lemma newErrors_empty (s : State) :
  newErrors s = ∅ ↔
  Spec.principal_rule (loanAmount s) = None
  ∧ Spec.rate_rule (interestRate s) = None
  ∧ Spec.term_rule (loanTerm s) = None.
Proof.
  destruct (newErrors_lookup s) as (H1 & H2 & H3).
  split.
  - intros He. rewrite He in H1, H2, H3. rewrite lookup_empty in H1, H2, H3. auto.
  - intros (E1 & E2 & E3). apply map_eq. intros k. rewrite lookup_empty.
    destruct (newErrors s !! k) as [v|] eqn:Hk; [|reflexivity].
    destruct (newErrors_keys s k) as [Ek|[Ek|Ek]]; [by eexists|..];
      subst k; congruence.
Qed.

(** The updates [calculateMortgage] enqueues, by the outcome of validation. *)
Lemma calculateMortgage_updates (pow : float → float → float) (s : State) :
  (calculateMortgage pow s).2
  = [setErrors (newErrors s); setSubmitted true]
    ++ (if bool_decide (newErrors s = ∅)
        then [setResult (Some (calculate pow (Number (loanAmount s))
                                 (Number (interestRate s)) (Number (loanTerm s))
                                 (mortgageType s)).1)]
        else []).
Proof.
  unfold calculateMortgage. rewrite validateForm_newErrors.
  unfold mbind, Logged_bind, bind, emit.
  destruct (bool_decide (newErrors s = ∅)); reflexivity.
Qed.

(** The figures [calculate] returns are the specification's, each rounded
    to cents. *)
Lemma calculate_value (pow : float → float → float)
    (P rate years : float) (ty : MortgageType) :
  (calculate pow P rate years ty).1
  = mkResult (Spec.round2 (Spec.unrounded pow P rate years ty).1.1)
             (Spec.round2 (Spec.unrounded pow P rate years ty).1.2)
             (Spec.round2 (Spec.unrounded pow P rate years ty).2).
Proof.
  unfold calculate, Spec.unrounded, Spec.repayment_monthly, Spec.monthlyRate,
    Spec.numberOfPayments, Spec.round2.
  destruct ty; simpl; [|reflexivity].
  destruct (rate / 100 / 12 =? 0)%float; reflexivity.
Qed.

(** The divisors [calculate] uses, in order. *)
Lemma calculate_divisors (pow : float → float → float)
    (P rate years : float) (ty : MortgageType) :
  (calculate pow P rate years ty).2
  = [100; 12]%float
    ++ match ty with
       | repayment =>
           let r := Spec.monthlyRate rate in
           let n := Spec.numberOfPayments years in
           [if (r =? 0)%float then n else (pow (1 + r) n - 1)%float]
       | interest_only => []
       end
    ++ [100; 100; 100]%float.
Proof.
  unfold calculate, Spec.monthlyRate, Spec.numberOfPayments.
  destruct ty; simpl; [|reflexivity].
  destruct (rate / 100 / 12 =? 0)%float; reflexivity.
Qed.

Lemma run_calculateMortgage_valid (pow : float → float → float) (s : State) :
  newErrors s = ∅ →
  run (calculateMortgage pow) s
  = mkState (loanAmount s) (interestRate s) (loanTerm s) (mortgageType s)
      (Some (calculate pow (Number (loanAmount s)) (Number (interestRate s))
               (Number (loanTerm s)) (mortgageType s)).1)
      ∅ true.
Proof.
  intros He. unfold run. rewrite calculateMortgage_updates, He.
  rewrite bool_decide_eq_true_2 by reflexivity. reflexivity.
Qed.

(** The Reset button brings the component back to its initial state. *)
Lemma handleReset_initial (s : State) : run handleReset s = initial.
Proof. reflexivity. Qed.

(** A state that passes validation holds numbers the calculator accepts. *)
Lemma valid_state (s : State) :
  newErrors s = ∅ →
  valid_principal (Number (loanAmount s)) = true
  ∧ valid_rate (Number (interestRate s)) = true
  ∧ valid_term (Number (loanTerm s)) = true.
Proof.
  intros (H1 & H2 & H3)%newErrors_empty.
  unfold Spec.principal_rule, Spec.rate_rule, Spec.term_rule in *.
  unfold valid_principal, valid_rate, valid_term.
  destruct (falsy (loanAmount s)); [done|].
  destruct (falsy (interestRate s)); [done|].
  destruct (falsy (loanTerm s)); [done|].
  repeat match goal with
         | H : (if ?b then _ else _) = None |- _ => destruct b eqn:?; [done|clear H]
         end.
  repeat match goal with
         | H : _ || _ = false |- _ => apply orb_false_iff in H; destruct H
         end.
  repeat match goal with
         | H : negb _ = false |- _ => apply negb_false_iff in H
         end.
  repeat match goal with H : _ = _ |- _ => rewrite H end. done.
Qed.

End HandlerFacts.

(** ** The validator *)

Section ValidatorClaims.
Import JS.
Local Open Scope float_scope.

(** C7: for every three raw texts the validator checks each field by its own
    rule, whatever the other fields hold; it always returns: the returned flag
    is true exactly when the error object is empty, the error object has no
    key besides the three field names, and the only update is the error
    object, so the texts themselves are neither rounded nor clamped. *)
Theorem C7_validator_checks_every_field (s : State) :
  validateForm s = (bool_decide (newErrors s = ∅), [setErrors (newErrors s)])
  ∧ newErrors s !! "loanAmount" = Spec.principal_rule (loanAmount s)
  ∧ newErrors s !! "interestRate" = Spec.rate_rule (interestRate s)
  ∧ newErrors s !! "loanTerm" = Spec.term_rule (loanTerm s)
  ∧ (∀ k, is_Some (newErrors s !! k) →
          k = "loanAmount" ∨ k = "interestRate" ∨ k = "loanTerm")
  ∧ apply_updates s (validateForm s).2
    = mkState (loanAmount s) (interestRate s) (loanTerm s) (mortgageType s)
              (result s) (newErrors s) (submitted s).
Proof.
  destruct (newErrors_lookup s) as (H1 & H2 & H3).
  split; [apply validateForm_newErrors|].
  do 3 (split; [assumption|]).
  split; [apply newErrors_keys|].
  rewrite validateForm_newErrors. reflexivity.
Qed.

(** C8: the rules field by field.  An empty loan amount reports "Loan amount
    is required"; a non-empty one that is not a number or is at most zero
    reports "Please enter a valid loan amount".  A rate below zero, such as
    "-1", is rejected and a rate equal to zero, such as "0", is accepted.  A
    term that is not a number, is at most zero or is not an integer, such as
    "2.5", is rejected.  For the texts "", "6.5", "30" the error object has
    the loan amount key and no other. *)
Theorem C8_field_rules :
  (∀ s, loanAmount s = "" →
        newErrors s !! "loanAmount" = Some "Loan amount is required")
  ∧ (∀ s, loanAmount s ≠ "" →
          isNaN (Number (loanAmount s)) || (Number (loanAmount s) <=? 0) = true →
          newErrors s !! "loanAmount" = Some "Please enter a valid loan amount")
  ∧ (∀ s, interestRate s ≠ "" → (Number (interestRate s) <? 0) = true →
          newErrors s !! "interestRate" = Some "Please enter a valid interest rate")
  ∧ (∀ s, interestRate s = "-1" → is_Some (newErrors s !! "interestRate"))
  ∧ (∀ s, interestRate s ≠ "" → (Number (interestRate s) =? 0) = true →
          newErrors s !! "interestRate" = None)
  ∧ (∀ s, interestRate s = "0" → newErrors s !! "interestRate" = None)
  ∧ (∀ s, loanTerm s ≠ "" →
          isNaN (Number (loanTerm s)) || (Number (loanTerm s) <=? 0)
            || negb (Number_isInteger (Number (loanTerm s))) = true →
          newErrors s !! "loanTerm" = Some "Please enter a valid loan term in years")
  ∧ (∀ s, loanTerm s = "2.5" → is_Some (newErrors s !! "loanTerm"))
  ∧ (∀ s, loanAmount s = "" → interestRate s = "6.5" → loanTerm s = "30" →
          newErrors s = {[ "loanAmount" := "Loan amount is required" ]}).
Proof.
  assert (Hf : ∀ t : string, t ≠ "" → falsy t = false) by (by intros []).
  repeat split; intros s.
  - intros E. destruct (newErrors_lookup s) as (-> & _). by rewrite E.
  - intros E H. destruct (newErrors_lookup s) as (-> & _).
    unfold Spec.principal_rule. by rewrite (Hf _ E), H.
  - intros E H. destruct (newErrors_lookup s) as (_ & -> & _).
    unfold Spec.rate_rule. rewrite (Hf _ E), H. by rewrite orb_true_r.
  - intros E. destruct (newErrors_lookup s) as (_ & -> & _). rewrite E.
    by eexists.
  - intros E H. destruct (newErrors_lookup s) as (_ & -> & _).
    unfold Spec.rate_rule, isNaN. rewrite (Hf _ E).
    destruct (eqb_zero_not_negative _ H) as (-> & -> & _). reflexivity.
  - intros E. destruct (newErrors_lookup s) as (_ & -> & _). by rewrite E.
  - intros E H. destruct (newErrors_lookup s) as (_ & _ & ->).
    unfold Spec.term_rule. by rewrite (Hf _ E), H.
  - intros E. destruct (newErrors_lookup s) as (_ & _ & ->). rewrite E.
    by eexists.
  - intros E1 E2 E3. destruct (newErrors_lookup s) as (H1 & H2 & H3).
    rewrite E1 in H1. rewrite E2 in H2. rewrite E3 in H3.
    apply map_eq. intros k.
    destruct (decide (k = "loanAmount")) as [->|N1].
    { rewrite lookup_singleton_eq. exact H1. }
    rewrite lookup_singleton_ne by done.
    destruct (newErrors s !! k) as [v|] eqn:Hk; [|reflexivity].
    destruct (newErrors_keys s k) as [Ek|[Ek|Ek]]; [by eexists|..];
      subst k; [done| |]; rewrite Hk in *; discriminate.
Qed.

End ValidatorClaims.

(** ** The Calculate action *)

Section CalculateAction.
Import JS.
Variable Math_pow : float → float → float.

(** C9: on every Calculate action a result is computed and stored exactly
    when the validator's error object is empty: the updates are the error
    object, the submitted flag and, only for an empty error object, the
    result computed from the validated texts; and a result update occurs
    among them only in that case. *)
Theorem C9_result_only_from_valid_input (s : State) :
  (validateForm s).1 = bool_decide (newErrors s = ∅)
  ∧ (calculateMortgage Math_pow s).2
    = [setErrors (newErrors s); setSubmitted true]
      ++ (if bool_decide (newErrors s = ∅)
          then [setResult (Some (figures Math_pow s))] else [])
  ∧ (∀ r, In (setResult r) (calculateMortgage Math_pow s).2
          ↔ newErrors s = ∅ ∧ r = Some (figures Math_pow s)).
Proof.
  split; [by rewrite validateForm_newErrors|].
  split; [apply calculateMortgage_updates|].
  intros r. rewrite calculateMortgage_updates.
  case_bool_decide as He; simpl; split.
  - intros [|[|[[= <-]|[]]]]; done.
  - intros [_ ->]. auto.
  - intros [|[|[]]]; done.
  - intros [? _]. done.
Qed.

(** C10: when a Calculate action fails validation, the stored result is left
    as it was, so a result of an earlier valid input stays in place; only
    the error object and the submitted flag change. *)
Theorem C10_failed_validation_keeps_result (s : State) :
  (validateForm s).1 = false →
  run (calculateMortgage Math_pow) s
  = mkState (loanAmount s) (interestRate s) (loanTerm s) (mortgageType s)
            (result s) (newErrors s) true.
Proof.
  rewrite validateForm_newErrors. simpl. intros He.
  unfold run. rewrite calculateMortgage_updates, He. reflexivity.
Qed.

End CalculateAction.

(** An earlier result, then an emptied loan amount: the result stays. *)
Lemma C10_witness :
  let s := mkState "" "6.5" "30" repayment
             (Some (mkResult 1580.17 568861.22 318861.22)) ∅ true in
  (validateForm s).1 = false
  ∧ result (run (calculateMortgage (λ _ _, nan)) s)
    = Some (mkResult 1580.17 568861.22 318861.22).
Proof.
  split; [vm_compute; reflexivity|].
  rewrite (C10_failed_validation_keeps_result (λ _ _, nan)); [reflexivity|].
  vm_compute; reflexivity.
Defined.


(** ** The figures *)

Section Figures.
Import JS.
Local Open Scope float_scope.
Variable Math_pow : float → float → float.

(** C1: for Repayment, with r = rate/100/12 and n = years*12, the monthly
    payment is P/n when r = 0 and P*(r*(1+r)^n)/((1+r)^n - 1) otherwise;
    before rounding the total payment is the monthly payment times n and the
    total interest is the total payment minus P.  This holds for every input,
    so for every validated one, where these are the figures stored. *)
Theorem C1_repayment_formula (P rate years : float) :
  let r := rate / 100 / 12 in
  let n := years * 12 in
  let m := if r =? 0 then P / n
           else P * (r * Math_pow (1 + r) n) / (Math_pow (1 + r) n - 1) in
  (calculate Math_pow P rate years repayment).1
  = mkResult (Spec.round2 m) (Spec.round2 (m * n)) (Spec.round2 (m * n - P))
  ∧ Spec.unrounded Math_pow P rate years repayment = (m, m * n, m * n - P)
  ∧ (∀ s, newErrors s = ∅ → mortgageType s = repayment →
          P = Number (loanAmount s) → rate = Number (interestRate s) →
          years = Number (loanTerm s) →
          result (run (calculateMortgage Math_pow) s)
          = Some (mkResult (Spec.round2 m) (Spec.round2 (m * n))
                    (Spec.round2 (m * n - P)))).
Proof.
  intros r n m. rewrite calculate_value.
  split; [reflexivity|]. split; [reflexivity|].
  intros s He Ht -> -> ->.
  rewrite (run_calculateMortgage_valid _ _ He), Ht. simpl.
  rewrite calculate_value. reflexivity.
Qed.

(** C4: each of the three figures is rounded on its own, as the value times
    100, rounded, divided by 100, and only at the end: the total payment and
    the total interest are computed from the unrounded monthly payment.  For
    250000 at 6.5 percent over 30 years, interest only, rounding the monthly
    payment first would give 487501.20 of interest instead of 487500. *)
Theorem C4_rounding_at_output_only (P rate years : float) (ty : MortgageType) :
  let u := Spec.unrounded Math_pow P rate years ty in
  let res := (calculate Math_pow P rate years ty).1 in
  monthlyPayment res = Math_round (u.1.1 * 100) / 100
  ∧ totalPayment res = Math_round (u.1.2 * 100) / 100
  ∧ totalInterest res = Math_round (u.2 * 100) / 100
  ∧ totalInterest (calculate Math_pow 250000 6.5 30 interest_only).1 = 487500
  ∧ Spec.round2 (monthlyPayment (calculate Math_pow 250000 6.5 30 interest_only).1 * 360)
    = 487501.2.
Proof.
  intros u res. subst u res. rewrite calculate_value. simpl.
  repeat split; vm_compute; reflexivity.
Qed.

End Figures.

(** ** Interest only *)

Section InterestOnly.
Import JS.
Local Open Scope float_scope.
Variable Math_pow : float → float → float.

(** C2: for Interest Only the monthly payment is P*r, which is zero when
    r = 0, the principal being a finite number; before rounding the total
    payment is P + monthlyPayment*n and the total interest is
    monthlyPayment*n.  For 250000 at 6.5 percent over 30 years the figures
    are 1354.17, 737500 and 487500: the interest is the monthly payment times
    360, rounded at output, and the total payment is 250000 plus that
    interest. *)
Theorem C2_interest_only_formula (P rate years : float) :
  let r := rate / 100 / 12 in
  let n := years * 12 in
  let m := P * r in
  (calculate Math_pow P rate years interest_only).1
  = mkResult (Spec.round2 m) (Spec.round2 (P + m * n)) (Spec.round2 (m * n))
  ∧ Spec.unrounded Math_pow P rate years interest_only = (m, P + m * n, m * n)
  ∧ (is_finite P = true → (r =? 0) = true →
     (m =? 0) = true
     ∧ (monthlyPayment (calculate Math_pow P rate years interest_only).1 =? 0) = true)
  ∧ (∀ s, newErrors s = ∅ → mortgageType s = interest_only →
          P = Number (loanAmount s) → rate = Number (interestRate s) →
          years = Number (loanTerm s) →
          result (run (calculateMortgage Math_pow) s)
          = Some (mkResult (Spec.round2 m) (Spec.round2 (P + m * n))
                    (Spec.round2 (m * n))))
  ∧ (calculate Math_pow 250000 6.5 30 interest_only).1
    = mkResult 1354.17 737500 487500
  ∧ Spec.round2 (250000 * (6.5 / 100 / 12) * 360) = 487500
  ∧ 250000 + 487500 = 737500.
Proof.
  intros r n m. rewrite calculate_value.
  split; [reflexivity|]. split; [reflexivity|].
  split.
  { intros HP Hr. pose proof (mul_zero_r P r HP Hr) as Hm.
    split; [exact Hm|]. simpl. by apply round2_zero. }
  split; [|repeat split; vm_compute; reflexivity].
  intros s He Ht -> -> ->.
  rewrite (run_calculateMortgage_valid _ _ He), Ht. reflexivity.
Qed.

End InterestOnly.

(** Why the zero-rate part above asks for a finite principal: the rules of
    [validateForm] do not themselves exclude the text "Infinity", which a
    numeric input field does not deliver and which is no decimal; for it the
    monthly rate of "0" is zero and Infinity * 0 is NaN. *)
Remark infinite_principal_zero_rate :
  let s := form "Infinity" "0" "1" interest_only in
  newErrors s = ∅
  ∧ (JS.Number (interestRate s) / 100 / 12 =? 0)%float = true
  ∧ is_nan (monthlyPayment (figures pow_model s)) = true
  ∧ (monthlyPayment (figures pow_model s) =? 0)%float = false.
Proof.
  split; [|repeat split; vm_compute; reflexivity].
  apply newErrors_empty. repeat split; vm_compute; reflexivity.
Qed.

(** ** Signs and order of the figures *)

Section SignsOfFigures.
Import JS.
Local Open Scope float_scope.
Variable Math_pow : float → float → float.

(** The monthly rate and the number of payments of a validated input. *)
Lemma rate_nn (rate : float) :
  valid_rate rate = true → SFnn (Prim2SF (rate / 100 / 12)) = true.
Proof.
  intros [Hr _]%valid_rate_nn.
  apply div_nn; [|by rewrite Prim2SF_12].
  apply div_nn; [done|by rewrite Prim2SF_100].
Qed.

Lemma annuity_parts (r n : float) :
  SFnn (Prim2SF r) = true → (Math_pow (1 + r) n <? 1) = false →
  SFnn (Prim2SF (r * Math_pow (1 + r) n)) = true
  ∧ SFsp (Prim2SF (Math_pow (1 + r) n - 1)) = true.
Proof.
  intros Hr Hp. split; [|by apply sub_one_sp].
  apply mul_nn; [done|by apply not_lt_one_nn].
Qed.

(** C5, as amended: for every input the validator accepts, calculate returns
    a result.  For Interest Only none of its figures is negative (each is at
    least zero, possibly +Infinity, or NaN), the total payment before
    rounding is not below the principal, and the rounded total payment is not
    below the principal rounded to cents.  For Repayment the monthly payment
    and the total payment are not negative when the monthly rate is zero, and
    also for a non-zero rate when [Math.pow (1+r) n] is not below 1.
    Finiteness, and a rounded total payment of at least the unrounded
    principal, are not part of what holds. *)
Theorem C5_figures_not_negative (s : State) :
  newErrors s = ∅ →
  let res := figures Math_pow s in
  let P := Number (loanAmount s) in
  let r := Number (interestRate s) / 100 / 12 in
  let n := Number (loanTerm s) * 12 in
  result (run (calculateMortgage Math_pow) s) = Some res
  ∧ (mortgageType s = interest_only →
     (monthlyPayment res <? 0) = false
     ∧ (totalInterest res <? 0) = false
     ∧ (totalPayment res <? 0) = false
     ∧ (P + P * r * n <? P) = false
     ∧ (totalPayment res <? Spec.round2 P) = false)
  ∧ (mortgageType s = repayment →
     (r =? 0) = true ∨ (Math_pow (1 + r) n <? 1) = false →
     (monthlyPayment res <? 0) = false
     ∧ (totalPayment res <? 0) = false).
Proof.
  intros He res P r n.
  destruct (valid_state s He) as (HP & Hrate & Hyears).
  split; [by rewrite (run_calculateMortgage_valid _ _ He)|].
  subst res. unfold figures. rewrite calculate_value. fold P in HP |- *.
  pose proof (valid_principal_pos P HP) as HPpos.
  pose proof (SFpos_sp _ HPpos) as HPsp.
  pose proof (SFsp_nn _ HPsp) as HPnn.
  pose proof (rate_nn _ Hrate) as Hr. fold r in Hr.
  pose proof (SFpos_sp _ (payments_pos _ Hyears)) as Hnsp. fold n in Hnsp.
  pose proof (SFsp_nn _ Hnsp) as Hnnn.
  split.
  - intros ->. simpl. fold P r n.
    assert (SFnn (Prim2SF (P * r)) = true) as Hm by (by apply mul_nn).
    assert (SFnn (Prim2SF (P * r * n)) = true) as Hi by (by apply mul_nn).
    pose proof (fmono_add P (P * r * n) HPpos Hi) as Hge.
    split; [by apply ltb_zero_nn, round2_nn|].
    split; [by apply ltb_zero_nn, round2_nn|].
    split; [by apply ltb_zero_nn, round2_nn, add_nn|].
    split; [by apply fmono_not_lt|].
    by apply fmono_not_lt, fmono_round2.
  - intros -> Hcase. simpl. unfold Spec.repayment_monthly.
    unfold Spec.monthlyRate, Spec.numberOfPayments. fold P r n.
    assert (SFnn (Prim2SF (if r =? 0 then P / n
                            else P * (r * Math_pow (1 + r) n)
                                 / (Math_pow (1 + r) n - 1))) = true) as Hm.
    { destruct (r =? 0) eqn:Er.
      - apply div_nn; done.
      - destruct Hcase as [|Hpow]; [done|].
        destruct (annuity_parts r n Hr Hpow) as [Hc Hd].
        apply div_nn; [|done]. by apply mul_nn. }
    split; apply ltb_zero_nn, round2_nn; [done|]. by apply mul_nn.
Qed.

(** C6, as amended: with the rate and the term fixed and 0 < P1 < P2, the
    monthly payment for P2 is never smaller than the one for P1: unless one
    of them is NaN, the payment for P1 is at most the payment for P2.  This
    holds for Interest Only, for Repayment at a zero monthly rate, and for
    Repayment at a non-zero rate when [Math.pow (1+r) n] is not below 1.
    The increase is not strict. *)
Theorem C6_payment_monotone (s1 s2 : State) :
  newErrors s1 = ∅ → newErrors s2 = ∅ →
  interestRate s1 = interestRate s2 → loanTerm s1 = loanTerm s2 →
  mortgageType s1 = mortgageType s2 →
  (Number (loanAmount s1) <? Number (loanAmount s2)) = true →
  let r := Number (interestRate s1) / 100 / 12 in
  let n := Number (loanTerm s1) * 12 in
  let m1 := monthlyPayment (figures Math_pow s1) in
  let m2 := monthlyPayment (figures Math_pow s2) in
  mortgageType s1 = interest_only ∨ (r =? 0) = true
    ∨ (Math_pow (1 + r) n <? 1) = false →
  (m2 <? m1) = false
  ∧ (is_nan m1 = true ∨ is_nan m2 = true ∨ (m1 <=? m2) = true).
Proof.
  intros He1 He2 Erate Eterm Ety Hlt r n m1 m2 Hcase.
  destruct (valid_state s1 He1) as (HP1 & Hrate & Hyears).
  assert (fmono m1 m2) as Hm; [|split; [by apply fmono_not_lt|by apply fmono_leb]].
  subst m1 m2. unfold figures. rewrite <- Erate, <- Eterm, <- Ety.
  rewrite !calculate_value. simpl.
  set (P1 := Number (loanAmount s1)) in *. set (P2 := Number (loanAmount s2)) in *.
  pose proof (SFsp_nn _ (SFpos_sp _ (valid_principal_pos P1 HP1))) as HP1nn.
  pose proof (ltb_fmono P1 P2 HP1nn Hlt) as HP.
  pose proof (rate_nn _ Hrate) as Hr. fold r in Hr.
  pose proof (SFpos_sp _ (payments_pos _ Hyears)) as Hnsp. fold n in Hnsp.
  apply fmono_round2.
  destruct (mortgageType s1) eqn:Ety1; simpl.
  - unfold Spec.repayment_monthly, Spec.monthlyRate, Spec.numberOfPayments.
    fold r n. destruct (r =? 0) eqn:Er.
    + by apply fmono_div.
    + destruct Hcase as [|[|Hpow]]; [done..|].
      destruct (annuity_parts r n Hr Hpow) as [Hc Hd].
      apply fmono_div; [|done]. by apply fmono_mul.
  - by apply fmono_mul.
Qed.

End SignsOfFigures.

(** 250000 at 6.5 percent over 30 years, Repayment, with the model of
    [Math.pow]. *)
Lemma C5_witness :
  let s := form "250000" "6.5" "30" repayment in
  newErrors s = ∅
  ∧ (monthlyPayment (figures pow_model s) <? 0)%float = false
  ∧ (totalPayment (figures pow_model s) <? 0)%float = false.
Proof.
  intros s.
  assert (newErrors s = ∅) as He by (vm_compute; reflexivity).
  split; [exact He|].
  apply (C5_figures_not_negative pow_model s He); [reflexivity|].
  right. vm_compute. reflexivity.
Defined.

(** C5 as stated fails.  With the texts "100.004", "0" and "1", Interest
    Only, the total payment is 100, below the principal.  With "1e308", "0"
    and "1", Repayment, the monthly payment is +Infinity.  With
    "123456789012345678", "0" and "1", Repayment, the total interest is
    -16. *)
Lemma C5_counterexample :
  (let s := form "100.004" "0" "1" interest_only in
   newErrors s = ∅
   ∧ totalPayment (figures pow_model s) = 100%float
   ∧ (totalPayment (figures pow_model s) <? JS.Number (loanAmount s))%float = true)
  ∧ (let s := form "1e308" "0" "1" repayment in
     newErrors s = ∅
     ∧ is_finite (JS.Number (loanAmount s)) = true
     ∧ monthlyPayment (figures pow_model s) = infinity
     ∧ is_finite (monthlyPayment (figures pow_model s)) = false)
  ∧ (let s := form "123456789012345678" "0" "1" repayment in
     newErrors s = ∅
     ∧ totalInterest (figures pow_model s) = (-16)%float
     ∧ (totalInterest (figures pow_model s) <? 0)%float = true).
Proof. repeat split; vm_compute; reflexivity. Qed.

(** 100000 and 200000 at 6.5 percent over 30 years, Repayment. *)
Lemma C6_witness :
  let s1 := form "100000" "6.5" "30" repayment in
  let s2 := form "200000" "6.5" "30" repayment in
  (JS.Number (loanAmount s1) <? JS.Number (loanAmount s2))%float = true
  ∧ (monthlyPayment (figures pow_model s2)
     <? monthlyPayment (figures pow_model s1))%float = false.
Proof.
  intros s1 s2.
  assert ((JS.Number (loanAmount s1) <? JS.Number (loanAmount s2))%float = true)
    as Hlt by (vm_compute; reflexivity).
  split; [exact Hlt|].
  apply (C6_payment_monotone pow_model s1 s2); try reflexivity; try exact Hlt.
  right; right. vm_compute. reflexivity.
Defined.

(** C6 as stated fails: the increase is not strict.  Interest Only at a zero
    rate pays 0 a month for 100000 and for 200000; Repayment at a zero rate
    over one year pays 0.08 a month for 1 and for 1.001. *)
Lemma C6_counterexample :
  (let s1 := form "100000" "0" "30" interest_only in
   let s2 := form "200000" "0" "30" interest_only in
   newErrors s1 = ∅ ∧ newErrors s2 = ∅
   ∧ (JS.Number (loanAmount s1) <? JS.Number (loanAmount s2))%float = true
   ∧ monthlyPayment (figures pow_model s1) = 0%float
   ∧ monthlyPayment (figures pow_model s2) = 0%float
   ∧ (monthlyPayment (figures pow_model s1)
      <? monthlyPayment (figures pow_model s2))%float = false)
  ∧ (let s1 := form "1" "0" "1" repayment in
     let s2 := form "1.001" "0" "1" repayment in
     newErrors s1 = ∅ ∧ newErrors s2 = ∅
     ∧ (JS.Number (loanAmount s1) <? JS.Number (loanAmount s2))%float = true
     ∧ monthlyPayment (figures pow_model s1) = 0.08%float
     ∧ monthlyPayment (figures pow_model s2) = 0.08%float
     ∧ (monthlyPayment (figures pow_model s1)
        <? monthlyPayment (figures pow_model s2))%float = false).
Proof. repeat split; vm_compute; reflexivity. Qed.

(** ** Division by zero *)

Section DivisionByZero.
Import JS.
Local Open Scope float_scope.
Variable Math_pow : float → float → float.

(** At a zero monthly rate Repayment takes the linear branch and divides by
    100, 12, the number of payments and three times 100: no divisor is zero.
    For 120000 over 10 years the figures are 1000, 120000 and 0. *)
Lemma zero_rate_divisors (P rate years : float) :
  valid_term years = true → (rate / 100 / 12 =? 0) = true →
  (calculate Math_pow P rate years repayment).2
  = [100; 12; years * 12; 100; 100; 100]
  ∧ Forall (λ d, (d =? 0) = false) (calculate Math_pow P rate years repayment).2
  ∧ monthlyPayment (calculate Math_pow P rate years repayment).1
    = Spec.round2 (P / (years * 12))
  ∧ calculate Math_pow 120000 0 10 repayment
    = (mkResult 1000 120000 0, [100; 12; 120; 100; 100; 100]).
Proof.
  intros Hy Hr.
  assert ((calculate Math_pow P rate years repayment).2
          = [100; 12; years * 12; 100; 100; 100]) as Hd.
  { rewrite calculate_divisors. unfold Spec.monthlyRate, Spec.numberOfPayments.
    simpl. by rewrite Hr. }
  split; [exact Hd|]. split; [|split].
  - rewrite Hd. pose proof (payments_pos _ Hy) as Hn.
    assert ((years * 12 =? 0) = false) as Hn0.
    { destruct (years * 12 =? 0) eqn:E; [|done].
      apply eqb_zero_spec in E as [s E]. by rewrite E in Hn. }
    repeat constructor; done.
  - rewrite calculate_value. simpl.
    unfold Spec.repayment_monthly, Spec.monthlyRate, Spec.numberOfPayments.
    by rewrite Hr.
  - vm_compute. reflexivity.
Qed.

(** C3 at its failing input: for the texts "100000", "1e-17" and "30",
    Repayment, which the validator accepts, the monthly rate is above zero,
    yet 1 + r is 1 in binary64; with [Math.pow 1 360 = 1] the annuity
    denominator is zero, calculate divides by it, and the three figures are
    +Infinity. *)
Theorem C3_tiny_rate_divides_by_zero :
  Math_pow 1 360 = 1 →
  let s := form "100000" "1e-17" "30" repayment in
  let r := Number (interestRate s) / 100 / 12 in
  newErrors s = ∅
  ∧ (0 <? r) = true
  ∧ 1 + r = 1
  ∧ (calculate Math_pow (Number (loanAmount s)) (Number (interestRate s))
       (Number (loanTerm s)) repayment).2
    = [100; 12; 0; 100; 100; 100]
  ∧ figures Math_pow s = mkResult infinity infinity infinity.
Proof.
  intros Hpow s r.
  split; [vm_compute; reflexivity|].
  split; [vm_compute; reflexivity|].
  split; [vm_compute; reflexivity|].
  unfold figures. rewrite calculate_value, calculate_divisors.
  unfold Spec.unrounded, Spec.repayment_monthly, Spec.monthlyRate,
    Spec.numberOfPayments, s, form. cbn [loanAmount interestRate loanTerm mortgageType].
  replace (1 + Number "1e-17" / 100 / 12) with 1 by (vm_compute; reflexivity).
  replace (Number "30" * 12) with 360 by (vm_compute; reflexivity).
  rewrite Hpow. split; vm_compute; reflexivity.
Qed.

End DivisionByZero.

(** The model of [Math.pow] gives [1] for [1] to the power 360. *)
Lemma C3_witness :
  pow_model 1 360 = 1%float
  ∧ figures pow_model (form "100000" "1e-17" "30" repayment)
    = mkResult infinity infinity infinity.
Proof.
  assert (pow_model 1 360 = 1%float) as H by (vm_compute; reflexivity).
  split; [exact H|].
  apply (C3_tiny_rate_divides_by_zero pow_model H).
Defined.

(** ** More about the validator *)

Section ValidatorExtras.
Import JS.
Local Open Scope float_scope.

Lemma falsy_spec (t : string) : falsy t = true ↔ t = "".
Proof. destruct t; simpl; split; congruence. Qed.

Lemma principal_rule_none (t : string) :
  Spec.principal_rule t = None ↔ t ≠ "" ∧ valid_principal (Number t) = true.
Proof.
  unfold Spec.principal_rule, valid_principal.
  destruct t as [|c t]; simpl falsy; cbv iota; [split; [done|by intros []]|].
  destruct (isNaN _), (_ <=? 0); simpl; split; try done; by intros [].
Qed.

Lemma rate_rule_none (t : string) :
  Spec.rate_rule t = None ↔ t ≠ "" ∧ valid_rate (Number t) = true.
Proof.
  unfold Spec.rate_rule, valid_rate.
  destruct t as [|c t]; simpl falsy; cbv iota; [split; [done|by intros []]|].
  destruct (isNaN _), (_ <? 0); simpl; split; try done; by intros [].
Qed.

Lemma term_rule_none (t : string) :
  Spec.term_rule t = None ↔ t ≠ "" ∧ valid_term (Number t) = true.
Proof.
  unfold Spec.term_rule, valid_term.
  destruct t as [|c t]; simpl falsy; cbv iota; [split; [done|by intros []]|].
  destruct (isNaN _), (_ <=? 0), (Number_isInteger _); simpl; split; try done;
    by intros [].
Qed.

(** X1: [validateForm] returns true exactly when each of the three texts is
    non-empty and parses to a number that is not NaN and is, for the loan
    amount, above zero; for the rate, not below zero; for the term, above
    zero and an integer. *)
Theorem validateForm_true_iff (s : State) :
  (validateForm s).1 = true
  ↔ (loanAmount s ≠ "" ∧ valid_principal (Number (loanAmount s)) = true)
    ∧ (interestRate s ≠ "" ∧ valid_rate (Number (interestRate s)) = true)
    ∧ (loanTerm s ≠ "" ∧ valid_term (Number (loanTerm s)) = true).
Proof.
  rewrite validateForm_newErrors. simpl.
  rewrite bool_decide_eq_true, newErrors_empty.
  rewrite principal_rule_none, rate_rule_none, term_rule_none. reflexivity.
Qed.

Lemma strip_prefix_Some (p l r : list ascii) :
  strip_prefix p l = Some r → l = p ++ r.
Proof.
  revert l. induction p as [|a p IH]; intros [|b l]; simpl; try congruence.
  destruct (Ascii.eqb_spec a b) as [->|]; [|done]. by intros ->%IH.
Qed.

Lemma drop_space_1 (c : ascii) (r : list ascii) :
  is_space c = true → drop_space (c :: r) = drop_space r.
Proof. simpl. by intros ->. Qed.

Lemma drop_space_2 (c1 c2 : ascii) (r : list ascii) :
  is_space c1 = false → is_space2 c1 c2 = true →
  drop_space (c1 :: c2 :: r) = drop_space r.
Proof. simpl. by intros -> ->. Qed.

Lemma drop_space_3 (c1 c2 c3 : ascii) (r : list ascii) :
  is_space c1 = false → is_space2 c1 c2 = false → is_space3 c1 c2 c3 = true →
  drop_space (c1 :: c2 :: c3 :: r) = drop_space r.
Proof. simpl. by intros -> -> ->. Qed.

(** Each white-space character, in its UTF-8 bytes, is dropped from the
    front of a text. *)
Lemma drop_space_utf8 (c : N) (r : list ascii) :
  In c white_space → drop_space (utf8 c ++ r) = drop_space r.
Proof.
  unfold white_space. simpl.
  intros H; repeat (destruct H as [<-|H]; [first
    [ by apply drop_space_1
    | by apply drop_space_2
    | by apply drop_space_3 ]|]).
  done.
Qed.

Lemma drop_space_all (k : nat) (l : list ascii) :
  white_space_only k l = true → drop_space l = [].
Proof.
  revert l. induction k as [|k IH]; intros [|a l]; try done.
  cbn [white_space_only]. intros (c & Hc & H)%existsb_exists.
  destruct (strip_prefix (utf8 c) (a :: l)) as [r|] eqn:E; [|done].
  apply strip_prefix_Some in E. rewrite E, drop_space_utf8 by done. by apply IH.
Qed.

Lemma Number_blank (t : string) : all_space t = true → Number t = 0.
Proof.
  unfold all_space, Number, trim. intros H.
  rewrite (drop_space_all _ _ H). reflexivity.
Qed.

(** X2: a non-empty text made of white-space characters only, ASCII or
    not, is not reported as missing.  [Number] reads it as 0, so as a loan
    amount and as a term it gets the "valid" message, and as an interest rate
    it is accepted. *)
Theorem blank_text_is_zero (t : string) (s : State) :
  t ≠ "" → all_space t = true →
  (loanAmount s = t →
   newErrors s !! "loanAmount" = Some "Please enter a valid loan amount")
  ∧ (interestRate s = t → newErrors s !! "interestRate" = None)
  ∧ (loanTerm s = t →
     newErrors s !! "loanTerm" = Some "Please enter a valid loan term in years").
Proof.
  intros Ht Hs. pose proof (Number_blank t Hs) as H0.
  assert (falsy t = false) as Hf by (by destruct t).
  destruct (newErrors_lookup s) as (-> & -> & ->).
  unfold Spec.principal_rule, Spec.rate_rule, Spec.term_rule.
  repeat split; intros ->; rewrite Hf, H0; reflexivity.
Qed.

End ValidatorExtras.

Lemma blank_text_is_zero_witness :
  let t := text_of [0x20; 0xA0; 0x9; 0x3000; 0xFEFF]%N in
  let s := form t t "30" repayment in
  newErrors s !! "loanAmount" = Some "Please enter a valid loan amount"
  ∧ newErrors s !! "interestRate" = None.
Proof.
  intros t s. split.
  - apply (blank_text_is_zero t s); [discriminate|reflexivity|reflexivity].
  - apply (blank_text_is_zero t s); [discriminate|reflexivity|reflexivity].
Defined.

(** ** Sequences of actions *)

Section Actions.
Import JS.
Variable Math_pow : float → float → float.

Lemma run_calculateMortgage_invalid (s : State) :
  newErrors s ≠ ∅ →
  run (calculateMortgage Math_pow) s
  = mkState (loanAmount s) (interestRate s) (loanTerm s) (mortgageType s)
            (result s) (newErrors s) true.
Proof.
  intros He. unfold run. rewrite calculateMortgage_updates.
  rewrite bool_decide_eq_false_2 by done. reflexivity.
Qed.

(** Validation reads the three texts and nothing else. *)
Lemma newErrors_texts (s s' : State) :
  loanAmount s = loanAmount s' → interestRate s = interestRate s' →
  loanTerm s = loanTerm s' → newErrors s = newErrors s'.
Proof.
  intros E1 E2 E3. apply map_eq. intros k.
  destruct (newErrors_lookup s) as (H1 & H2 & H3).
  destruct (newErrors_lookup s') as (H1' & H2' & H3').
  destruct (decide (k = "loanAmount")) as [->|N1]; [congruence|].
  destruct (decide (k = "interestRate")) as [->|N2]; [congruence|].
  destruct (decide (k = "loanTerm")) as [->|N3]; [congruence|].
  destruct (newErrors s !! k) eqn:Hk.
  { destruct (newErrors_keys s k) as [|[|]]; [by eexists|done..]. }
  destruct (newErrors s' !! k) eqn:Hk'; [|done].
  destruct (newErrors_keys s' k) as [|[|]]; [by eexists|done..].
Qed.

Lemma figures_texts (s s' : State) :
  loanAmount s = loanAmount s' → interestRate s = interestRate s' →
  loanTerm s = loanTerm s' → mortgageType s = mortgageType s' →
  figures Math_pow s = figures Math_pow s'.
Proof. unfold figures. by intros -> -> -> ->. Qed.

(** X3: pressing Calculate twice in a row leaves the state that pressing it
    once leaves. *)
Theorem calculate_twice (s : State) :
  run (calculateMortgage Math_pow) (run (calculateMortgage Math_pow) s)
  = run (calculateMortgage Math_pow) s.
Proof.
  destruct (decide (newErrors s = ∅)) as [He|He].
  - rewrite (run_calculateMortgage_valid _ s He).
    set (s1 := mkState _ _ _ _ _ _ _).
    assert (newErrors s1 = ∅) as He1 by (by rewrite <- He; apply newErrors_texts).
    rewrite (run_calculateMortgage_valid _ s1 He1). reflexivity.
  - rewrite (run_calculateMortgage_invalid s He).
    set (s1 := mkState _ _ _ _ _ _ _).
    assert (newErrors s1 = newErrors s) as E1 by (by apply newErrors_texts).
    rewrite (run_calculateMortgage_invalid s1) by (by rewrite E1).
    rewrite E1. reflexivity.
Qed.

(** X4: Reset brings every state back to the initial one, so it discards the
    texts, the stored result and the error messages; Calculate pressed right
    after it stores no result and reports each of the three fields as
    required. *)
Theorem calculate_after_reset (s : State) :
  run handleReset s = initial
  ∧ run (calculateMortgage Math_pow) (run handleReset s)
    = mkState "" "" "" repayment None
        {[ "loanAmount" := "Loan amount is required";
           "interestRate" := "Interest rate is required";
           "loanTerm" := "Loan term is required" ]}
        true.
Proof.
  split; [reflexivity|]. rewrite handleReset_initial.
  assert (newErrors initial
          = {[ "loanAmount" := "Loan amount is required";
               "interestRate" := "Interest rate is required";
               "loanTerm" := "Loan term is required" ]}) as E
    by (vm_compute; reflexivity).
  rewrite run_calculateMortgage_invalid; rewrite E; [reflexivity|].
  intros H. apply (f_equal (λ m : FormErrors, m !! "loanAmount")) in H.
  vm_compute in H. discriminate.
Qed.

Lemma after_events_snoc (s : State) (es : list Event) (e : Event) :
  after_events Math_pow s (es ++ [e])
  = on_event Math_pow (after_events Math_pow s es) e.
Proof. unfold after_events. by rewrite fold_left_app. Qed.

(** What an edit leaves alone. *)
Lemma on_edit_frame (s : State) (e : Event) :
  is_edit e = true →
  result (on_event Math_pow s e) = result s
  ∧ errors (on_event Math_pow s e) = errors s
  ∧ submitted (on_event Math_pow s e) = submitted s.
Proof. destruct e; simpl; done. Qed.

(** What Calculate leaves in the state. *)
Lemma on_calculate (s : State) :
  let s' := on_event Math_pow s ClickCalculate in
  submitted s' = true
  ∧ errors s' = newErrors s
  ∧ result s' = (if bool_decide (newErrors s = ∅)
                 then Some (figures Math_pow s) else result s)
  ∧ loanAmount s' = loanAmount s ∧ interestRate s' = interestRate s
  ∧ loanTerm s' = loanTerm s ∧ mortgageType s' = mortgageType s.
Proof.
  simpl. case_bool_decide as He.
  - rewrite (run_calculateMortgage_valid _ s He). simpl. by rewrite He.
  - rewrite (run_calculateMortgage_invalid s He). done.
Qed.

(** X5: from the initial state, whatever the user does, as long as the
    form has not been submitted since the last Reset there is no error
    message and no stored result: the page shows no message and no results
    card. *)
Theorem blank_until_submitted (es : list Event) :
  let s := after_events Math_pow initial es in
  submitted s = true
  ∨ (errors s = ∅ ∧ result s = None ∧ render s = mkView None None None None).
Proof.
  induction es as [|e es IH] using rev_ind; [right; done|].
  rewrite after_events_snoc. cbv zeta in *.
  set (s := after_events Math_pow initial es) in *.
  destruct (is_edit e) eqn:Ee.
  - destruct (on_edit_frame s e Ee) as (Hr & Her & Hs).
    destruct IH as [IH|(IH1 & IH2 & _)]; [left; congruence|right].
    unfold render, shown_error. rewrite Hr, Her, Hs, IH1, IH2.
    repeat split. by destruct (submitted s).
  - destruct e; try discriminate.
    + left. apply on_calculate.
    + right. done.
Qed.

(** X6: in every state reachable from the initial one, a stored result is
    the figures computed at an earlier Calculate from texts that passed
    validation: there is a prefix of the events after which validation
    succeeds and whose figures are the stored ones. *)
Theorem stored_result_provenance (es : list Event) :
  match result (after_events Math_pow initial es) with
  | Some r =>
      ∃ es0, es0 `prefix_of` es
             ∧ newErrors (after_events Math_pow initial es0) = ∅
             ∧ r = figures Math_pow (after_events Math_pow initial es0)
  | None => True
  end.
Proof.
  induction es as [|e es IH] using rev_ind; [done|].
  rewrite after_events_snoc.
  set (s := after_events Math_pow initial es) in *.
  assert (∀ r, result s = Some r →
               ∃ es0, es0 `prefix_of` es ++ [e]
                      ∧ newErrors (after_events Math_pow initial es0) = ∅
                      ∧ r = figures Math_pow (after_events Math_pow initial es0))
    as Hold.
  { intros r Hr. rewrite Hr in IH. destruct IH as (es0 & Hp & H1 & H2).
    exists es0. split; [|done]. by apply prefix_app_r. }
  destruct (is_edit e) eqn:Ee.
  - destruct (on_edit_frame s e Ee) as (-> & _).
    destruct (result s); [by apply Hold|done].
  - destruct e; try discriminate.
    + destruct (on_calculate s) as (_ & _ & -> & _).
      case_bool_decide as He.
      * exists es. split; [by apply prefix_app_r|done].
      * destruct (result s); [by apply Hold|done].
    + done.
Qed.

Lemma newErrors_known (s : State) :
  map_Forall (λ k v, known_message k v = true) (newErrors s).
Proof.
  intros k v Hk.
  destruct (newErrors_lookup s) as (H1 & H2 & H3).
  unfold Spec.principal_rule, Spec.rate_rule, Spec.term_rule in *.
  destruct (newErrors_keys s k) as [-> | [-> | ->]]; [by eexists|..];
    rewrite Hk in *; repeat case_match; simplify_eq; reflexivity.
Qed.

(** X7: in every state reachable from the initial one, each entry of the
    error object sits under one of the three field names and holds one of
    the two messages of that field; so each message the page shows is one of
    those six texts. *)
Theorem errors_are_known_messages (es : list Event) :
  let s := after_events Math_pow initial es in
  map_Forall (λ k v, known_message k v = true) (errors s)
  ∧ (∀ field msg, shown_error s field = Some msg → known_message field msg = true).
Proof.
  assert (map_Forall (λ k v, known_message k v = true)
            (errors (after_events Math_pow initial es))) as H.
  { induction es as [|e es IH] using rev_ind; [apply map_Forall_empty|].
    rewrite after_events_snoc.
    set (s := after_events Math_pow initial es) in *.
    destruct (is_edit e) eqn:Ee.
    - destruct (on_edit_frame s e Ee) as (_ & -> & _). exact IH.
    - destruct e; try (simpl in Ee; congruence).
      + destruct (on_calculate s) as (_ & -> & _). apply newErrors_known.
      + apply map_Forall_empty. }
  split; [exact H|].
  intros field msg. unfold shown_error.
  destruct (submitted _); [|done].
  destruct (errors _ !! field) as [m|] eqn:E; [|done].
  destruct (falsy m); [done|]. intros [= <-]. by apply (H field).
Qed.

(** X8: typing into the inputs and choosing a mortgage type never touch the
    stored result, the error object or the submitted flag: nothing is
    recomputed or revalidated until Calculate is pressed, so the results
    card keeps the figures of the texts that were there at the last
    Calculate while its summary follows the current texts. *)
Theorem edits_keep_result (s : State) (es : list Event) :
  forallb is_edit es = true →
  let s' := after_events Math_pow s es in
  result s' = result s ∧ errors s' = errors s ∧ submitted s' = submitted s
  ∧ match resultsCard (render s), resultsCard (render s') with
    | Some c, Some c' =>
        cardFigures c' = cardFigures c
        ∧ cardLoanAmount c' = Number (loanAmount s')
        ∧ cardInterestRate c' = Number (interestRate s')
        ∧ cardLoanTerm c' = loanTerm s'
    | None, None => True
    | _, _ => False
    end.
Proof.
  intros Hes.
  assert (result (after_events Math_pow s es) = result s
          ∧ errors (after_events Math_pow s es) = errors s
          ∧ submitted (after_events Math_pow s es) = submitted s) as (Hr & He & Hs).
  { induction es as [|e es IH] using rev_ind; [done|].
    rewrite forallb_app in Hes. apply andb_true_iff in Hes as [Hes He].
    simpl in He. rewrite andb_true_r in He.
    rewrite after_events_snoc.
    destruct (on_edit_frame (after_events Math_pow s es) e He) as (-> & -> & ->).
    by apply IH. }
  cbv zeta. split; [done|]. split; [done|]. split; [done|].
  unfold render. simpl. rewrite Hr. by destruct (result s).
Qed.

(** X9: right after Calculate the message under each input is the one its
    field's rule gives for the text it holds, or none; when all three pass,
    the results card shows the figures of exactly the texts and the mortgage
    type that its summary shows; when one fails, the card is the one that
    was there before. *)
Theorem render_after_calculate (s : State) :
  let v := render (run (calculateMortgage Math_pow) s) in
  loanAmountMessage v = Spec.principal_rule (loanAmount s)
  ∧ interestRateMessage v = Spec.rate_rule (interestRate s)
  ∧ loanTermMessage v = Spec.term_rule (loanTerm s)
  ∧ resultsCard v
    = (if (validateForm s).1 then
         Some (mkCard (calculate Math_pow (Number (loanAmount s))
                         (Number (interestRate s)) (Number (loanTerm s))
                         (mortgageType s)).1
                 (Number (loanAmount s)) (Number (interestRate s)) (loanTerm s)
                 (match mortgageType s with
                  | repayment => "Repayment"
                  | interest_only => "Interest Only"
                  end))
       else resultsCard (render s)).
Proof.
  cbv zeta. rewrite validateForm_newErrors. cbn [fst].
  destruct (on_calculate s) as (Hsub & Herr & Hres & E1 & E2 & E3 & E4).
  cbn [on_event] in *.
  set (s' := run (calculateMortgage Math_pow) s) in *.
  destruct (newErrors_lookup s) as (H1 & H2 & H3).
  unfold render, shown_error.
  cbn [loanAmountMessage interestRateMessage loanTermMessage resultsCard].
  rewrite Hsub, Herr, H1, H2, H3, Hres, E1, E2, E3, E4.
  repeat split.
  - unfold Spec.principal_rule.
    destruct (falsy (loanAmount s)); [done|]. by destruct (_ || _).
  - unfold Spec.rate_rule.
    destruct (falsy (interestRate s)); [done|]. by destruct (_ || _).
  - unfold Spec.term_rule.
    destruct (falsy (loanTerm s)); [done|]. by destruct (_ || _ || _).
  - by case_bool_decide.
Qed.

End Actions.

(** 100000 at no interest, calculated, then the loan amount retyped. *)
Lemma edits_keep_result_witness :
  let s := run (calculateMortgage pow_model) (form "100000" "0" "30" repayment) in
  let s' := after_events pow_model s [TypeLoanAmount "200000"; ClickInterestOnly] in
  result s' = result s
  ∧ result s' = Some (mkResult 277.78 100000 0)
  ∧ figures pow_model s' = mkResult 0 200000 0.
Proof.
  intros s s'. split; [|split; vm_compute; reflexivity].
  apply (edits_keep_result pow_model s
           [TypeLoanAmount "200000"; ClickInterestOnly] eq_refl).
Defined.

(** ** More about the figures *)

Section FigureExtras.
Import JS.
Local Open Scope float_scope.
Variable Math_pow : float → float → float.

Lemma eqb_100_0 : (100 =? 0) = false.
Proof. reflexivity. Qed.

Lemma eqb_12_0 : (12 =? 0) = false.
Proof. reflexivity. Qed.

Lemma payments_nonzero (years : float) :
  valid_term years = true → (years * 12 =? 0) = false.
Proof.
  intros Hy. pose proof (payments_pos _ Hy) as Hn.
  destruct (years * 12 =? 0) eqn:E; [|done].
  apply eqb_zero_spec in E as [s E]. by rewrite E in Hn.
Qed.

(** X10: for a term the validator accepts, calculate divides by zero in one
    case only: Repayment, a monthly rate that is not zero, and
    [Math.pow (1+r) n - 1] equal to zero.  Interest Only never divides by
    zero. *)
Theorem zero_divisor_iff (P rate years : float) (ty : MortgageType) :
  valid_term years = true →
  let r := rate / 100 / 12 in
  let n := years * 12 in
  existsb (λ d, d =? 0) (calculate Math_pow P rate years ty).2 = true
  ↔ ty = repayment ∧ (r =? 0) = false ∧ (Math_pow (1 + r) n - 1 =? 0) = true.
Proof.
  intros Hy r n. rewrite calculate_divisors.
  unfold Spec.monthlyRate, Spec.numberOfPayments. fold r n.
  destruct ty; cbn [app existsb]; rewrite ?eqb_100_0, ?eqb_12_0; cbn [orb].
  - destruct (r =? 0) eqn:Er.
    + unfold n. rewrite (payments_nonzero _ Hy). split; [done|]. by intros (_ & ? & _).
    + rewrite orb_false_r. split; [done|]. by intros (_ & _ & ?).
  - split; [done|]. by intros (? & _).
Qed.

End FigureExtras.

Lemma zero_divisor_iff_witness :
  existsb (λ d, d =? 0)%float
    (calculate pow_model 100000 (JS.Number "1e-17") 30 repayment).2 = true
  ∧ existsb (λ d, d =? 0)%float
      (calculate pow_model 100000 (JS.Number "1e-17") 30 interest_only).2 = false.
Proof.
  split.
  - apply (zero_divisor_iff pow_model 100000 (JS.Number "1e-17") 30 repayment);
      [reflexivity|]. repeat split; vm_compute; reflexivity.
  - destruct (existsb _ _) eqn:E; [|reflexivity].
    apply (zero_divisor_iff pow_model 100000 (JS.Number "1e-17") 30 interest_only)
      in E as (? & _); [discriminate|reflexivity].
Defined.

(** ** Values that are neither negative nor NaN *)

Section NotNegativeNotNaN.
Local Open Scope float_scope.

Lemma leb_zero_ge0 (x : float) :
  (0 <=? x) = true ↔ SFge0 (Prim2SF x) = true.
Proof.
  rewrite FloatAxioms.leb_spec, Prim2SF_zero.
  by destruct (Prim2SF x) as [[]|[]| |[] m e].
Qed.

Lemma sign_false_ge0 (x : spec_float) : sign_is false x → SFge0 x = true.
Proof. by destruct x as [[]|[]| |[] m e]. Qed.

Lemma SFmul_ge0_l (m : positive) (e : Z) (y : spec_float) :
  SFge0 y = true → SFge0 (SFmul prec emax (S754_finite false m e) y) = true.
Proof.
  destruct y as [sy|[]| |[] my ey]; try done. intros _.
  apply sign_false_ge0, binary_round_aux_sign. lia.
Qed.

Lemma SFmul_ge0_r (x : spec_float) (m : positive) (e : Z) :
  SFge0 x = true → SFge0 (SFmul prec emax x (S754_finite false m e)) = true.
Proof.
  destruct x as [sx|[]| |[] mx ex]; try done. intros _.
  apply sign_false_ge0, binary_round_aux_sign. lia.
Qed.

Lemma SFdiv_ge0 (x : spec_float) (m : positive) (e : Z) :
  SFge0 x = true → SFge0 (SFdiv prec emax x (S754_finite false m e)) = true.
Proof.
  destruct x as [sx|[]| |[] mx ex]; try done. intros _.
  pose proof (SFdiv_sign false false (S754_finite false mx ex)
                (S754_finite false m e) eq_refl eq_refl) as [H|H].
  - exfalso. simpl in H.
    pose proof (SFdiv_core_nonneg mx m ex e) as Hq.
    destruct (SFdiv_core_binary _ _ _ _ _ _) as [[q e'] l]. simpl in Hq.
    pose proof (binary_round_aux_sign false q e' l Hq) as Hs.
    rewrite H in Hs. exact Hs.
  - by apply sign_false_ge0.
Qed.

Lemma SFadd_ge0 (m : positive) (e : Z) (y : spec_float) :
  SFge0 y = true → SFge0 (SFadd prec emax (S754_finite false m e) y) = true.
Proof.
  destruct y as [sy|[]| |[] my ey]; try done. intros _.
  unfold SFadd. cbv zeta. unfold cond_Zopp.
  match goal with
  | |- context [binary_normalize _ _ (Z.pos ?a + Z.pos ?b) ?ez _] =>
      change (Z.pos a + Z.pos b)%Z with (Z.pos (a + b));
      apply sign_false_ge0, (binary_round_sign false (a + b) ez)
  end.
Qed.

Lemma finite_pos (x : float) :
  SFpos (Prim2SF x) = true → is_finite x = true →
  ∃ m e, Prim2SF x = S754_finite false m e.
Proof.
  intros Hp Hf%is_finite_spec.
  destruct (Prim2SF x) as [|[]| |[] m e]; try done. by exists m, e.
Qed.

Lemma Math_round_ge0 (x : float) :
  SFge0 (Prim2SF x) = true → SFge0 (Prim2SF (JS.Math_round x)) = true.
Proof.
  intros Hx. unfold JS.Math_round.
  destruct (Prim2SF x) as [s|s| |s m e] eqn:E; try by rewrite E.
  destruct (0 <=? e)%Z; [by rewrite E|].
  destruct s; [discriminate|]. rewrite of_uint63_spec.
  pose proof (to_Z_bounded (of_Z (Z.abs ((2 * Z.pos m + 2 ^ (- e)) / (2 * 2 ^ (- e))))))
    as [Hn _].
  pose proof (binary_normalize_nn _ 0 false Hn) as H.
  apply sign_false_ge0. by destruct (_ =? _)%Z.
Qed.

Lemma round2_ge0 (x : float) :
  SFge0 (Prim2SF x) = true → SFge0 (Prim2SF (Spec.round2 x)) = true.
Proof.
  intros Hx. unfold Spec.round2.
  rewrite FloatAxioms.div_spec, Prim2SF_100. apply SFdiv_ge0, Math_round_ge0.
  rewrite FloatAxioms.mul_spec, Prim2SF_100. by apply SFmul_ge0_r.
Qed.

Lemma rate_ge0 (rate : float) :
  valid_rate rate = true → SFge0 (Prim2SF (rate / 100 / 12)) = true.
Proof.
  intros [Hnn Hnan]%valid_rate_nn.
  rewrite FloatAxioms.div_spec, Prim2SF_12. apply SFdiv_ge0.
  rewrite FloatAxioms.div_spec, Prim2SF_100. apply SFdiv_ge0.
  by destruct (Prim2SF rate) as [[]|[]| |[] m e].
Qed.

Lemma SFmul_comm (x y : spec_float) :
  SFmul prec emax x y = SFmul prec emax y x.
Proof.
  destruct x as [sx|sx| |sx mx ex], y as [sy|sy| |sy my ey]; simpl;
    try reflexivity; try (by rewrite xorb_comm).
  by rewrite xorb_comm, Pos.mul_comm, Z.add_comm.
Qed.

Lemma mul_comm (x y : float) : x * y = y * x.
Proof.
  apply Prim2SF_inj. rewrite !FloatAxioms.mul_spec. apply SFmul_comm.
Qed.

Lemma fmono_mul_l (x y c : float) :
  fmono x y → SFnn (Prim2SF c) = true → fmono (c * x) (c * y).
Proof. rewrite (mul_comm c x), (mul_comm c y). apply fmono_mul. Qed.

Lemma mul_zero_l (x y : float) :
  (x =? 0) = true → is_finite y = true → (x * y =? 0) = true.
Proof. rewrite (mul_comm x y). intros. by apply mul_zero_r. Qed.

Lemma add_zero_r (x z : float) :
  SFpos (Prim2SF x) = true → (z =? 0) = true → x + z = x.
Proof.
  intros Hx [s Hz]%eqb_zero_spec. apply Prim2SF_inj.
  rewrite FloatAxioms.add_spec, Hz.
  by destruct (Prim2SF x) as [|[]| |[] m e].
Qed.

End NotNegativeNotNaN.

(** ** The figures of finite inputs, and the other monotone figures *)

Section FiniteFigures.
Import JS.
Local Open Scope float_scope.
Variable Math_pow : float → float → float.

(** X11: for an input the validator accepts whose principal and number of
    payments are finite, the Interest Only figures are all at least zero,
    NaN excluded; so are the Repayment monthly payment and total payment at
    a zero monthly rate. *)
Theorem finite_figures_ge_zero (s : State) :
  newErrors s = ∅ →
  is_finite (Number (loanAmount s)) = true →
  is_finite (Number (loanTerm s) * 12) = true →
  let res := figures Math_pow s in
  (mortgageType s = interest_only →
   (0 <=? monthlyPayment res) = true
   ∧ (0 <=? totalPayment res) = true
   ∧ (0 <=? totalInterest res) = true)
  ∧ (mortgageType s = repayment →
     (Number (interestRate s) / 100 / 12 =? 0) = true →
     (0 <=? monthlyPayment res) = true ∧ (0 <=? totalPayment res) = true).
Proof.
  intros He HPf Hnf res.
  destruct (valid_state s He) as (HP & Hrate & Hyears).
  destruct (finite_pos _ (valid_principal_pos _ HP) HPf) as (mP & eP & EP).
  destruct (finite_pos _ (payments_pos _ Hyears) Hnf) as (mn & en & En).
  pose proof (rate_ge0 _ Hrate) as Hr.
  subst res. unfold figures. rewrite calculate_value.
  set (P := Number (loanAmount s)) in *.
  set (r := Number (interestRate s) / 100 / 12) in *.
  set (n := Number (loanTerm s) * 12) in *.
  split.
  - intros ->. simpl. fold P r n.
    assert (SFge0 (Prim2SF (P * r)) = true) as Hm
      by (rewrite FloatAxioms.mul_spec, EP; by apply SFmul_ge0_l).
    assert (SFge0 (Prim2SF (P * r * n)) = true) as Hi
      by (rewrite FloatAxioms.mul_spec, En; by apply SFmul_ge0_r).
    assert (SFge0 (Prim2SF (P + P * r * n)) = true) as Ht
      by (rewrite FloatAxioms.add_spec, EP; by apply SFadd_ge0).
    repeat split; by apply leb_zero_ge0, round2_ge0.
  - intros -> Hr0. simpl. unfold Spec.repayment_monthly.
    unfold Spec.monthlyRate, Spec.numberOfPayments. fold P r n. rewrite Hr0.
    assert (SFge0 (Prim2SF (P / n)) = true) as Hm
      by (rewrite FloatAxioms.div_spec, En, EP; by apply SFdiv_ge0).
    assert (SFge0 (Prim2SF (P / n * n)) = true) as Ht
      by (rewrite FloatAxioms.mul_spec, En; by apply SFmul_ge0_r).
    split; by apply leb_zero_ge0, round2_ge0.
Qed.

(** X12: Interest Only at a zero monthly rate, with a finite principal and a
    finite number of payments: the monthly payment and the total interest
    are zero and the total payment is the principal rounded to cents. *)
Theorem interest_free_interest_only (s : State) :
  newErrors s = ∅ → mortgageType s = interest_only →
  is_finite (Number (loanAmount s)) = true →
  is_finite (Number (loanTerm s) * 12) = true →
  (Number (interestRate s) / 100 / 12 =? 0) = true →
  let res := figures Math_pow s in
  (monthlyPayment res =? 0) = true
  ∧ (totalInterest res =? 0) = true
  ∧ totalPayment res = Spec.round2 (Number (loanAmount s)).
Proof.
  intros He Hty HPf Hnf Hr0 res.
  destruct (valid_state s He) as (HP & _ & _).
  subst res. unfold figures. rewrite calculate_value, Hty. simpl.
  unfold Spec.monthlyRate, Spec.numberOfPayments.
  set (P := Number (loanAmount s)) in *.
  set (r := Number (interestRate s) / 100 / 12) in *.
  set (n := Number (loanTerm s) * 12) in *.
  pose proof (mul_zero_r P r HPf Hr0) as Hm.
  pose proof (mul_zero_l (P * r) n Hm Hnf) as Hi.
  split; [by apply round2_zero|]. split; [by apply round2_zero|].
  by rewrite (add_zero_r P (P * r * n) (valid_principal_pos _ HP) Hi).
Qed.

(** X13: with the rate and the term fixed and 0 < P1 < P2, the Interest Only
    total interest for P2 is never smaller than the one for P1, and neither
    is the Repayment total payment, at a zero monthly rate or when
    [Math.pow (1+r) n] is not below 1. *)
Theorem totals_monotone (s1 s2 : State) :
  newErrors s1 = ∅ → newErrors s2 = ∅ →
  interestRate s1 = interestRate s2 → loanTerm s1 = loanTerm s2 →
  mortgageType s1 = mortgageType s2 →
  (Number (loanAmount s1) <? Number (loanAmount s2)) = true →
  let r := Number (interestRate s1) / 100 / 12 in
  let n := Number (loanTerm s1) * 12 in
  (mortgageType s1 = interest_only →
   (totalInterest (figures Math_pow s2) <? totalInterest (figures Math_pow s1)) = false)
  ∧ (mortgageType s1 = repayment →
     (r =? 0) = true ∨ (Math_pow (1 + r) n <? 1) = false →
     (totalPayment (figures Math_pow s2) <? totalPayment (figures Math_pow s1)) = false).
Proof.
  intros He1 He2 Erate Eterm Ety Hlt r n.
  destruct (valid_state s1 He1) as (HP1 & Hrate & Hyears).
  unfold figures. rewrite <- Erate, <- Eterm, <- Ety. rewrite !calculate_value.
  set (P1 := Number (loanAmount s1)) in *. set (P2 := Number (loanAmount s2)) in *.
  pose proof (SFsp_nn _ (SFpos_sp _ (valid_principal_pos P1 HP1))) as HP1nn.
  pose proof (ltb_fmono P1 P2 HP1nn Hlt) as HP.
  pose proof (rate_nn _ Hrate) as Hr. fold r in Hr.
  pose proof (SFpos_sp _ (payments_pos _ Hyears)) as Hnsp. fold n in Hnsp.
  pose proof (SFsp_nn _ Hnsp) as Hnnn.
  split.
  - intros ->. simpl. fold P1 P2 r n.
    apply fmono_not_lt, fmono_round2, fmono_mul; [|done]. by apply fmono_mul.
  - intros -> Hcase. simpl. unfold Spec.repayment_monthly.
    unfold Spec.monthlyRate, Spec.numberOfPayments. fold P1 P2 r n.
    apply fmono_not_lt, fmono_round2, fmono_mul; [|done].
    destruct (r =? 0) eqn:Er.
    + by apply fmono_div.
    + destruct Hcase as [|Hpow]; [done|].
      destruct (annuity_parts Math_pow r n Hr Hpow) as [Hc Hd].
      apply fmono_div; [|done]. by apply fmono_mul.
Qed.

(** X14: Interest Only with the principal and the term fixed: for rates
    0 <= rate1 < rate2 the monthly payment and the total interest for rate2
    are never smaller than those for rate1. *)
Theorem interest_only_monotone_in_rate (s1 s2 : State) :
  newErrors s1 = ∅ → newErrors s2 = ∅ →
  loanAmount s1 = loanAmount s2 → loanTerm s1 = loanTerm s2 →
  mortgageType s1 = interest_only → mortgageType s2 = interest_only →
  (Number (interestRate s1) <? Number (interestRate s2)) = true →
  (monthlyPayment (figures Math_pow s2) <? monthlyPayment (figures Math_pow s1)) = false
  ∧ (totalInterest (figures Math_pow s2) <? totalInterest (figures Math_pow s1)) = false.
Proof.
  intros He1 He2 EP Eterm Ety1 Ety2 Hlt.
  destruct (valid_state s1 He1) as (HP & Hrate & Hyears).
  unfold figures. rewrite <- EP, <- Eterm, Ety1, Ety2. rewrite !calculate_value.
  simpl.
  set (P := Number (loanAmount s1)) in *.
  set (n := Number (loanTerm s1) * 12) in *.
  pose proof (SFsp_nn _ (SFpos_sp _ (valid_principal_pos P HP))) as HPnn.
  pose proof (SFsp_nn _ (SFpos_sp _ (payments_pos _ Hyears))) as Hnnn. fold n in Hnnn.
  destruct (valid_rate_nn _ Hrate) as [Hr1 _].
  pose proof (ltb_fmono _ _ Hr1 Hlt) as Hr.
  apply (fmono_div _ _ 100) in Hr; [|by rewrite Prim2SF_100].
  apply (fmono_div _ _ 12) in Hr; [|by rewrite Prim2SF_12].
  apply (fmono_mul_l _ _ P) in Hr; [|done].
  split; apply fmono_not_lt, fmono_round2; [done|]. by apply fmono_mul.
Qed.

End FiniteFigures.

Lemma finite_figures_ge_zero_witness :
  let s := form "250000" "6.5" "30" interest_only in
  newErrors s = ∅
  ∧ (0 <=? monthlyPayment (figures pow_model s))%float = true
  ∧ (0 <=? totalPayment (figures pow_model s))%float = true
  ∧ (0 <=? totalInterest (figures pow_model s))%float = true.
Proof.
  intros s.
  assert (newErrors s = ∅) as He by (vm_compute; reflexivity).
  split; [exact He|].
  apply (finite_figures_ge_zero pow_model s He); reflexivity.
Defined.

Lemma interest_free_interest_only_witness :
  let s := form "100.004" "0" "1" interest_only in
  newErrors s = ∅
  ∧ (monthlyPayment (figures pow_model s) =? 0)%float = true
  ∧ (totalInterest (figures pow_model s) =? 0)%float = true
  ∧ totalPayment (figures pow_model s) = Spec.round2 (JS.Number (loanAmount s)).
Proof.
  intros s.
  assert (newErrors s = ∅) as He by (vm_compute; reflexivity).
  split; [exact He|].
  apply (interest_free_interest_only pow_model s He); reflexivity.
Defined.

Lemma totals_monotone_witness :
  let s1 := form "100000" "6.5" "30" interest_only in
  let s2 := form "200000" "6.5" "30" interest_only in
  (JS.Number (loanAmount s1) <? JS.Number (loanAmount s2))%float = true
  ∧ (totalInterest (figures pow_model s2)
     <? totalInterest (figures pow_model s1))%float = false.
Proof.
  intros s1 s2.
  assert ((JS.Number (loanAmount s1) <? JS.Number (loanAmount s2))%float = true)
    as Hlt by (vm_compute; reflexivity).
  split; [exact Hlt|].
  assert (newErrors s1 = ∅) as He1 by (vm_compute; reflexivity).
  assert (newErrors s2 = ∅) as He2 by (vm_compute; reflexivity).
  destruct (totals_monotone pow_model s1 s2 He1 He2 eq_refl eq_refl eq_refl Hlt)
    as [H _].
  apply H. reflexivity.
Defined.

Lemma interest_only_monotone_in_rate_witness :
  let s1 := form "100000" "3.5" "30" interest_only in
  let s2 := form "100000" "6.5" "30" interest_only in
  (JS.Number (interestRate s1) <? JS.Number (interestRate s2))%float = true
  ∧ (monthlyPayment (figures pow_model s2)
     <? monthlyPayment (figures pow_model s1))%float = false
  ∧ (totalInterest (figures pow_model s2)
     <? totalInterest (figures pow_model s1))%float = false.
Proof.
  intros s1 s2.
  assert ((JS.Number (interestRate s1) <? JS.Number (interestRate s2))%float = true)
    as Hlt by (vm_compute; reflexivity).
  split; [exact Hlt|].
  apply (interest_only_monotone_in_rate pow_model s1 s2); try reflexivity; exact Hlt.
Defined.
